(** * iter-chain: the lazy generators of [src/generators.ts]

    Every [function*] of the source is embedded as the state machine it
    denotes: a state type (the program point together with the live
    locals) and a [next] function that runs the body up to its next
    observable event.  The outputs of a generator are observed with
    [drive], which collects what is yielded within a bounded number of
    steps, so that sources that never finish are covered as well as
    arrays.  A [number] that counts or indexes is an integer ([Z]). *)

From Stdlib Require Import ZArith Lia Ascii String.
From stdpp Require Import base option list gmap strings pretty sorting.

Local Open Scope Z_scope.

(** ** The iteration protocol *)

(** One step of an iterator.  [Done] is [{done: true}], [Yield v s] is
    [{done: false, value: v}] with [s] the state the iterator resumes
    from, and [Tau s] is a turn of a loop of the body that reached no
    [yield] (a rejected element, a buffered element): a JS [next()] call
    is the run of [Tau] steps up to the first [Yield] or [Done]. *)
Inductive Step (T S : Type) : Type :=
  | Done
  | Tau (s : S)
  | Yield (value : T) (s : S).
Arguments Done {T S}.
Arguments Tau {T S} s.
Arguments Yield {T S} value s.

(** An [Iterable<T>]: [iterator] is [source[Symbol.iterator]()].  A value
    of this type stands for one derivation of a sequence, iterated from
    its start wherever it is named, as an array is; handing one and the
    same one-shot generator object to two parameters of a call is not
    expressed by naming a value twice. *)
Record Iterable (T : Type) : Type := MkIterable {
  State : Type;
  next : State → Step T State;
  iterator : State
}.
Arguments MkIterable {T State} next iterator.
Arguments State {T} _.
Arguments next {T} _ _.
Arguments iterator {T} _.

(** [pull next fuel s] runs the iterator from state [s] for at most
    [fuel] steps; it returns the values yielded, in order, and whether
    [{done: true}] was reached. *)
Fixpoint pull {T S : Type} (next : S → Step T S) (fuel : nat) (s : S)
  : list T * bool :=
  match fuel with
  | O => ([], false)
  | S fuel' =>
      match next s with
      | Done => ([], true)
      | Tau s' => pull next fuel' s'
      | Yield value s' =>
          let r := pull next fuel' s' in (value :: r.1, r.2)
      end
  end.

Definition drive {T : Type} (fuel : nat) (source : Iterable T) : list T * bool :=
  pull (next source) fuel (iterator source).

(** [source] has yielded exactly [l] after some number of steps, and
    [done] tells whether it has returned by then. *)
Definition Produces {T : Type} (source : Iterable T) (l : list T) (done : bool) : Prop :=
  ∃ fuel, drive fuel source = (l, done).

(** [source] is the finite sequence [l]: it yields [l] and returns. *)
Definition Yields {T : Type} (source : Iterable T) (l : list T) : Prop :=
  Produces source l true.

(** [l] is what [source] yields first (all of it, or a strict prefix). *)
Definition Prefix {T : Type} (source : Iterable T) (l : list T) : Prop :=
  ∃ done, Produces source l done.

(** An array as an iterable: the iterator state is the part of the array
    not yet visited. *)
Definition arrayNext {T : Type} (rest : list T) : Step T (list T) :=
  match rest with
  | [] => Done
  | item :: rest' => Yield item rest'
  end.

Definition fromArray {T : Type} (items : list T) : Iterable T :=
  MkIterable arrayNext items.

(** The natural numbers from [start], an iterable that never returns. *)
Definition countFrom (start : Z) : Iterable Z :=
  MkIterable (fun i => Yield i (i + 1)) start.

(** [x || d] for an optional callback [x]. *)
Definition orDefault {A : Type} (x : option A) (d : A) : A :=
  match x with
  | Some f => f
  | None => d
  end.

(** ** Producers *)

(** The double nearest to the integer [z], ties going to the even
    mantissa.  Every integer of magnitude up to 2^53 is a double; above,
    the doubles are the multiples of a power of two.  Overflow to
    [Infinity] (from 2^1024 on) is left out. *)
Definition nearestDouble (z : Z) : Z :=
  if Z.abs z <=? 2 ^ 53 then z
  else
    let ulp := 2 ^ (Z.log2 (Z.abs z) - 52) in
    let below := z / ulp * ulp in
    let rest := z - below in
    if 2 * rest <? ulp then below
    else if ulp <? 2 * rest then below + ulp
    else if Z.even (z / ulp) then below else below + ulp.

(** [a + b] on numbers that hold integers: the exact sum, rounded to a
    double. *)
Definition numberAdd (a b : Z) : Z := nearestDouble (a + b).

(** [for (let i = 0; i < count; i++) yield start + i].  The counter [i]
    counts the turns of the loop and is exact (a loop has fewer than
    2^53 turns); [start + i] is a sum of doubles. *)
Definition rangeGenerator (start count : Z) : Iterable Z :=
  MkIterable
    (fun i => if i <? count then Yield (numberAdd start i) (i + 1) else Done)
    0.

(** [for (let i = 0; i < count; i++) yield value] *)
Definition repeatGenerator {T : Type} (value : T) (count : Z) : Iterable T :=
  MkIterable
    (fun i => if i <? count then Yield value (i + 1) else Done)
    0.

(** ** Elementwise transformers *)

Section Elementwise.
Context {T R : Type}.

(** [let i = 0; for (const item of source) { yield selector(item, i); i++ }] *)
Definition mapNext (source : Iterable T) (selector : T → Z → R)
    (st : Z * State source) : Step R (Z * State source) :=
  let '(i, s) := st in
  match next source s with
  | Done => Done
  | Tau s' => Tau (i, s')
  | Yield item s' => Yield (selector item i) (i + 1, s')
  end.

Definition mapGenerator (source : Iterable T) (selector : T → Z → R) : Iterable R :=
  MkIterable (mapNext source selector) (0, iterator source).

(** [let i = 0; for (const item of source) { if (condition(item, i)) yield item }]:
    the body never assigns [i]. *)
Definition filterNext (source : Iterable T) (condition : T → Z → bool)
    (st : Z * State source) : Step T (Z * State source) :=
  let '(i, s) := st in
  match next source s with
  | Done => Done
  | Tau s' => Tau (i, s')
  | Yield item s' =>
      if condition item i then Yield item (i, s') else Tau (i, s')
  end.

Definition filterGenerator (source : Iterable T) (condition : T → Z → bool) : Iterable T :=
  MkIterable (filterNext source condition) (0, iterator source).
End Elementwise.

(** ** Structural combinators *)

Section Structural.
Context {T : Type}.

(** [yield element; for (const item of source) yield item].  The state
    is [None] before the first [yield] and [Some s] inside the loop. *)
Definition appendNext (source : Iterable T) (element : T)
    (st : option (State source)) : Step T (option (State source)) :=
  match st with
  | None => Yield element (Some (iterator source))
  | Some s =>
      match next source s with
      | Done => Done
      | Tau s' => Tau (Some s')
      | Yield item s' => Yield item (Some s')
      end
  end.

Definition appendGenerator (source : Iterable T) (element : T) : Iterable T :=
  MkIterable (appendNext source element) None.

(** [for (const item of source) yield item; yield element].  The state
    is [Some s] inside the loop and [None] after the last [yield]. *)
Definition prependNext (source : Iterable T) (element : T)
    (st : option (State source)) : Step T (option (State source)) :=
  match st with
  | Some s =>
      match next source s with
      | Done => Yield element None
      | Tau s' => Tau (Some s')
      | Yield item s' => Yield item (Some s')
      end
  | None => Done
  end.

Definition prependGenerator (source : Iterable T) (element : T) : Iterable T :=
  MkIterable (prependNext source element) (Some (iterator source)).

(** [for (const sourceItem of source) yield sourceItem;
     for (const otherItem of other) yield otherItem] *)
Definition concatNext (source other : Iterable T)
    (st : State source + State other) : Step T (State source + State other) :=
  match st with
  | inl s =>
      match next source s with
      | Done => Tau (inr (iterator other))
      | Tau s' => Tau (inl s')
      | Yield sourceItem s' => Yield sourceItem (inl s')
      end
  | inr s =>
      match next other s with
      | Done => Done
      | Tau s' => Tau (inr s')
      | Yield otherItem s' => Yield otherItem (inr s')
      end
  end.

Definition concatGenerator (source other : Iterable T) : Iterable T :=
  MkIterable (concatNext source other) (inl (iterator source)).

(** The two loops of [skipGenerator]. *)
Inductive SkipState (S : Type) : Type :=
  | Skipping (count : Z) (s : S)
  | Passing (s : S).
Arguments Skipping {S} count s.
Arguments Passing {S} s.

(** [let result = iterator.next();
     while (!result.done && count > 0) { count--; result = iterator.next() }
     while (!result.done) { yield result.value; result = iterator.next() }] *)
Definition skipNext (source : Iterable T)
    (st : SkipState (State source)) : Step T (SkipState (State source)) :=
  match st with
  | Skipping count s =>
      match next source s with
      | Done => Done
      | Tau s' => Tau (Skipping count s')
      | Yield value s' =>
          if 0 <? count then Tau (Skipping (count - 1) s')
          else Yield value (Passing s')
      end
  | Passing s =>
      match next source s with
      | Done => Done
      | Tau s' => Tau (Passing s')
      | Yield value s' => Yield value (Passing s')
      end
  end.

Definition skipGenerator (source : Iterable T) (count : Z) : Iterable T :=
  MkIterable (skipNext source) (Skipping count (iterator source)).

(** [let result = iterator.next();
     while (!result.done && count > 0) { yield result.value; count--; result = iterator.next() }] *)
Definition takeNext (source : Iterable T)
    (st : Z * State source) : Step T (Z * State source) :=
  let '(count, s) := st in
  match next source s with
  | Done => Done
  | Tau s' => Tau (count, s')
  | Yield value s' =>
      if 0 <? count then Yield value (count - 1, s') else Done
  end.

Definition takeGenerator (source : Iterable T) (count : Z) : Iterable T :=
  MkIterable (takeNext source) (count, iterator source).

(** [Array.from(source)] under way, then the index loop over [buffer]. *)
Inductive ReverseState (S : Type) : Type :=
  | Buffering (buffer : list T) (s : S)
  | Emitting (buffer : list T) (i : nat).
Arguments Buffering {S} buffer s.
Arguments Emitting {S} buffer i.

(** [const buffer = Array.from(source);
     for (let i = 0; i < buffer.length; i++) yield buffer[buffer.length - i - 1]] *)
Definition reverseNext (source : Iterable T)
    (st : ReverseState (State source)) : Step T (ReverseState (State source)) :=
  match st with
  | Buffering buffer s =>
      match next source s with
      | Done => Tau (Emitting buffer 0)
      | Tau s' => Tau (Buffering buffer s')
      | Yield item s' => Tau (Buffering (buffer ++ [item]) s')
      end
  | Emitting buffer i =>
      if bool_decide (i < length buffer)%nat then
        match buffer !! (length buffer - i - 1)%nat with
        | Some item => Yield item (Emitting buffer (i + 1)%nat)
        | None => Done (* not reached: the index is within the buffer *)
        end
      else Done
  end.

Definition reverseGenerator (source : Iterable T) : Iterable T :=
  MkIterable (reverseNext source) (Buffering [] (iterator source)).
End Structural.
Arguments Skipping {S} count s.
Arguments Passing {S} s.
Arguments Buffering {T S} buffer s.
Arguments Emitting {T S} buffer i.

(** ** Identity-based set operators *)

(** The two phases of [except] and [intersect]: [new Set(...)] consuming
    the stringified [second], then the loop over [first]. *)
Inductive SetOpState (K S2 S1 : Type) `{Countable K} : Type :=
  | Collecting (set : gset K) (s2 : S2)
  | Streaming (set : gset K) (s1 : S1).
Arguments Collecting {K S2 S1 _ _} set s2.
Arguments Streaming {K S2 S1 _ _} set s1.

Section SetOperators.
Context {T K : Type} `{Countable K}.
(** [selfSelector] is imported from [./common], which is not at hand:
    it stands for the default stringifier, whatever it computes (the
    specification has the identity). *)
Variable selfSelector : T → K.

(** [const set = new Set<string>();
     for (const item of source) {
       const key = stringifier(item);
       if (!set.has(key)) { set.add(key); yield item }
     }] *)
Definition distinctNext (source : Iterable T) (stringifier : T → K)
    (st : gset K * State source) : Step T (gset K * State source) :=
  let '(set, s) := st in
  match next source s with
  | Done => Done
  | Tau s' => Tau (set, s')
  | Yield item s' =>
      let key := stringifier item in
      if negb (bool_decide (key ∈ set)) then Yield item ({[key]} ∪ set, s')
      else Tau (set, s')
  end.

Definition distinctGenerator (source : Iterable T) (stringifier : option (T → K))
    : Iterable T :=
  let stringifier := orDefault stringifier selfSelector in
  MkIterable (distinctNext source stringifier) (∅, iterator source).

(** [mapGenerator(second, stringifier)]: the index that [mapGenerator]
    passes as second argument is ignored by a stringifier. *)
Definition stringified (second : Iterable T) (stringifier : T → K) : Iterable K :=
  mapGenerator second (fun item _ => stringifier item).

(** [const set = new Set<string>(mapGenerator(second, stringifier));
     for (const item of first) { if (!set.has(stringifier(item))) yield item }] *)
Definition exceptNext (first second : Iterable T) (stringifier : T → K)
    (st : SetOpState K (State (stringified second stringifier)) (State first))
    : Step T (SetOpState K (State (stringified second stringifier)) (State first)) :=
  match st with
  | Collecting set s2 =>
      match next (stringified second stringifier) s2 with
      | Done => Tau (Streaming set (iterator first))
      | Tau s2' => Tau (Collecting set s2')
      | Yield key s2' => Tau (Collecting ({[key]} ∪ set) s2')
      end
  | Streaming set s1 =>
      match next first s1 with
      | Done => Done
      | Tau s1' => Tau (Streaming set s1')
      | Yield item s1' =>
          if negb (bool_decide (stringifier item ∈ set))
          then Yield item (Streaming set s1')
          else Tau (Streaming set s1')
      end
  end.

Definition exceptGenerator (first second : Iterable T) (stringifier : option (T → K))
    : Iterable T :=
  let stringifier := orDefault stringifier selfSelector in
  MkIterable (exceptNext first second stringifier)
    (Collecting ∅ (iterator (stringified second stringifier))).

(** [const set = new Set<string>(mapGenerator(second, stringifier));
     for (const item of first) { if (set.has(stringifier(item))) yield item }] *)
Definition intersectNext (first second : Iterable T) (stringifier : T → K)
    (st : SetOpState K (State (stringified second stringifier)) (State first))
    : Step T (SetOpState K (State (stringified second stringifier)) (State first)) :=
  match st with
  | Collecting set s2 =>
      match next (stringified second stringifier) s2 with
      | Done => Tau (Streaming set (iterator first))
      | Tau s2' => Tau (Collecting set s2')
      | Yield key s2' => Tau (Collecting ({[key]} ∪ set) s2')
      end
  | Streaming set s1 =>
      match next first s1 with
      | Done => Done
      | Tau s1' => Tau (Streaming set s1')
      | Yield item s1' =>
          if bool_decide (stringifier item ∈ set)
          then Yield item (Streaming set s1')
          else Tau (Streaming set s1')
      end
  end.

Definition intersectGenerator (first second : Iterable T) (stringifier : option (T → K))
    : Iterable T :=
  let stringifier := orDefault stringifier selfSelector in
  MkIterable (intersectNext first second stringifier)
    (Collecting ∅ (iterator (stringified second stringifier))).

(** [stringifier = stringifier || selfSelector;
     return distinctGenerator(concatGenerator(first, second), stringifier)] *)
Definition unionGenerator (first second : Iterable T) (stringifier : option (T → K))
    : Iterable T :=
  let stringifier := orDefault stringifier selfSelector in
  distinctGenerator (concatGenerator first second) (Some stringifier).
End SetOperators.

(** The set that [new Set(keys)] builds on top of [set]: every key is
    added in turn. *)
Definition addAll {K : Type} `{Countable K} (set : gset K) (keys : list K) : gset K :=
  foldl (fun set key => {[key]} ∪ set) set keys.

(** ** Objects and grouping *)

(** Modelled from the spec: [KeyValue<K, V>] is declared in [./common],
    which is not at hand; the specification gives a Key-Value Pair as
    [{key: K, value: V}]. *)
Record KeyValue (K V : Type) : Type := MkKeyValue { key : K; value : V }.
Arguments MkKeyValue {K V} key value.
Arguments key {K V} _.
Arguments value {K V} _.

(** A key of type [string | number]: numbers are integers here, and
    symbols (which [for ... in] never visits) are left out. *)
Inductive PropertyKey : Type :=
  | KNumber (n : Z)
  | KString (s : string).

(** Property keys are strings: a number used as a key is converted to
    its decimal text (what JS prints for a safe integer, one of
    magnitude up to 2^53; beyond, JS rounds the digits, and prints an
    exponent from 10^21 on). *)
Definition ToPropertyKey (k : PropertyKey) : string :=
  match k with
  | KNumber n => pretty n
  | KString s => s
  end.

(** The names that every plain object inherits from [Object.prototype].
    [record[name]] is not [null] for them on a fresh object, and an own
    property of such a name hides the inherited method. *)
Definition objectPrototypeNames : list string :=
  ["constructor"; "__defineGetter__"; "__defineSetter__"; "hasOwnProperty";
   "__lookupGetter__"; "__lookupSetter__"; "isPrototypeOf"; "propertyIsEnumerable";
   "toString"; "valueOf"; "__proto__"; "toLocaleString"]%string.

(** The keys for which [ToPropertyKey] and the own-property lookups
    below are what the code does: a number that is a safe integer (JS
    prints all its digits), and a name that is not inherited from
    [Object.prototype]. *)
Definition plainKey (k : PropertyKey) : Prop :=
  (ToPropertyKey k ∉ objectPrototypeNames) ∧
  (match k with
   | KNumber n => Z.abs n ≤ 2 ^ 53
   | KString _ => True
   end).

(** The own properties of a plain object, in the order of creation
    (what [Object.prototype] lends to every object is left out). *)
Definition JsObject (V : Type) : Type := list (string * V).

(** [obj[name]], [None] for [undefined]. *)
Fixpoint getProp {V : Type} (name : string) (obj : JsObject V) : option V :=
  match obj with
  | [] => None
  | (name', v) :: obj' =>
      if String.eqb name name' then Some v else getProp name obj'
  end.

(** [obj[name] = v]: an existing property keeps its place, a new one is
    created last. *)
Fixpoint setProp {V : Type} (name : string) (v : V) (obj : JsObject V) : JsObject V :=
  match obj with
  | [] => [(name, v)]
  | (name', v') :: obj' =>
      if String.eqb name name' then (name', v) :: obj'
      else (name', v') :: setProp name v obj'
  end.

Definition digitValue (c : ascii) : option N :=
  let n := N_of_ascii c in
  if (48 <=? n)%N && (n <=? 57)%N then Some (n - 48)%N else None.

Fixpoint parseDigits (acc : N) (s : string) : option N :=
  match s with
  | EmptyString => Some acc
  | String c s' =>
      match digitValue c with
      | Some d => parseDigits (acc * 10 + d)%N s'
      | None => None
      end
  end.

(** An array index is a key that is the canonical decimal text of an
    integer from 0 to 2^32 - 2. *)
Definition arrayIndex (name : string) : option N :=
  match name with
  | EmptyString => None
  | _ =>
      match parseDigits 0 name with
      | Some n =>
          if (n <=? 4294967294)%N && String.eqb (pretty n) name
          then Some n else None
      | None => None
      end
  end.

(** The order in which [for (const key in obj)] visits the own
    properties of a plain object: the array indices in ascending
    numeric order, then the other names in the order of creation. *)
Definition ownKeys {V : Type} (obj : JsObject V) : list string :=
  let names := obj.*1 in
  (pretty <$> merge_sort N.le (omap arrayIndex names))
  ++ List.filter (fun name => bool_decide (arrayIndex name = None)) names.

Section Objects.
Context {V : Type}.

(** [for (const key in obj) { if (obj.hasOwnProperty(key)) yield {key, value: obj[key]} }]:
    the state is the list of keys still to visit.  [hasOwnProperty] is
    the method that every object inherits; an object with an own
    property of that name, on which the call does something else, is
    outside this definition. *)
Definition objectNext (obj : JsObject V) (keys : list string)
    : Step (KeyValue string V) (list string) :=
  match keys with
  | [] => Done
  | name :: keys' =>
      match getProp name obj with
      | Some v => Yield (MkKeyValue name v) keys'
      | None => Tau keys' (* [hasOwnProperty] is false *)
      end
  end.

Definition objectGenerator (obj : JsObject V) : Iterable (KeyValue string V) :=
  MkIterable (objectNext obj) (ownKeys obj).
End Objects.

Section Grouping.
Context {T V : Type}.

(** A [for (const item of source) body] loop that runs to completion
    before the enclosing function returns: [None] when [fuel] steps
    of [source] do not exhaust it. *)
Fixpoint forOf {A : Type} (source : Iterable T) (body : A → T → A)
    (fuel : nat) (s : State source) (acc : A) : option A :=
  match fuel with
  | O => None
  | S fuel' =>
      match next source s with
      | Done => Some acc
      | Tau s' => forOf source body fuel' s' acc
      | Yield item s' => forOf source body fuel' s' (body acc item)
      end
  end.

(** [const key = keySelector(item);
     if (record[key] == null) { record[key] = [] }
     record[key].push(valueSelector(item))],
    for the keys of [plainKey]: on a name of [objectPrototypeNames] the
    code finds the inherited member, creates no bucket and fails in
    [push], which is outside this definition. *)
Definition groupByBody (keySelector : T → PropertyKey) (valueSelector : T → V)
    (record : JsObject (list V)) (item : T) : JsObject (list V) :=
  let name := ToPropertyKey (keySelector item) in
  let record :=
    match getProp name record with
    | None => setProp name [] record
    | Some _ => record
    end in
  match getProp name record with
  | Some values => setProp name (values ++ [valueSelector item]) record
  | None => record (* not reached: the bucket was just created *)
  end.

Variable selfSelector : T → V.

(** [valueSelector = valueSelector || selfSelector;
     const record = {};
     for (const item of source) { ... }
     return objectGenerator(record)] *)
Definition groupByGenerator (fuel : nat) (source : Iterable T)
    (keySelector : T → PropertyKey) (valueSelector : option (T → V))
    : option (Iterable (KeyValue string (list V))) :=
  let valueSelector := orDefault valueSelector selfSelector in
  match forOf source (groupByBody keySelector valueSelector) fuel (iterator source) [] with
  | Some record => Some (objectGenerator record)
  | None => None
  end.
End Grouping.

Section GroupCompared.
Context {T TKey V : Type}.

(** [pair.value.push(v)] for the pair held at index [i] of [result]. *)
Definition pushValue (v : V) (i : nat) (result : list (KeyValue TKey (list V)))
    : list (KeyValue TKey (list V)) :=
  alter (fun pair => MkKeyValue (key pair) (value pair ++ [v])) i result.

(** [const key = keySelector(item);
     let pair = result.find(x => keyComparer(x.key, key));
     if (pair == null) { pair = {key, value: []}; result.push(pair) }
     pair.value.push(valueSelector(item))]:
    [pair] is the object at index [i] of [result]. *)
Definition groupComparedByBody (keySelector : T → TKey) (keyComparer : TKey → TKey → bool)
    (valueSelector : T → V) (result : list (KeyValue TKey (list V))) (item : T)
    : list (KeyValue TKey (list V)) :=
  let k := keySelector item in
  let '(i, result) :=
    match list_find (fun x => keyComparer (key x) k = true) result with
    | Some (i, _) => (i, result)
    | None => (length result, result ++ [MkKeyValue k []])
    end in
  pushValue (valueSelector item) i result.

(** [defaultComparer] and [selfSelector] are imported from [./common],
    which is not at hand: they stand for the defaults, whatever they
    compute. *)
Variable defaultComparer : TKey → TKey → bool.
Variable selfSelector : T → V.

(** [keyComparer = keyComparer || defaultComparer;
     valueSelector = valueSelector || selfSelector;
     const result = [];
     for (const item of source) { ... }
     return result] *)
Definition groupComparedByGenerator (fuel : nat) (source : Iterable T)
    (keySelector : T → TKey) (keyComparer : option (TKey → TKey → bool))
    (valueSelector : option (T → V)) : option (list (KeyValue TKey (list V))) :=
  let keyComparer := orDefault keyComparer defaultComparer in
  let valueSelector := orDefault valueSelector selfSelector in
  forOf source (groupComparedByBody keySelector keyComparer valueSelector)
    fuel (iterator source) [].
End GroupCompared.

(** ** The behaviours the specification words, as functions on lists *)

(** "The index increments on every upstream pull": the filter whose
    predicate receives the zero-based count of the elements pulled. *)
Fixpoint filterByPullCount {T : Type} (condition : T → Z → bool) (i : Z) (l : list T)
  : list T :=
  match l with
  | [] => []
  | item :: l' =>
      if condition item i then item :: filterByPullCount condition (i + 1) l'
      else filterByPullCount condition (i + 1) l'
  end.

(** "Yields an element only the first time its identity string
    appears": [seen] holds the identities met so far. *)
Fixpoint firstOccurrences {T K : Type} `{Countable K} (identity : T → K)
    (seen : gset K) (l : list T) : list T :=
  match l with
  | [] => []
  | item :: l' =>
      if bool_decide (identity item ∈ seen) then firstOccurrences identity seen l'
      else item :: firstOccurrences identity ({[identity item]} ∪ seen) l'
  end.

(** [selector] applied elementwise, with the running index from [i]. *)
Fixpoint mapIndexed {T R : Type} (selector : T → Z → R) (i : Z) (l : list T) : list R :=
  match l with
  | [] => []
  | item :: l' => selector item i :: mapIndexed selector (i + 1) l'
  end.

(** "Each group's value list preserves the source's order": the selected
    values of the items whose key is [name], in the order of the source. *)
Definition bucketOf {T V : Type} (keySelector : T → PropertyKey) (valueSelector : T → V)
    (name : string) (items : list T) : list V :=
  valueSelector <$>
    List.filter (fun item => String.eqb (ToPropertyKey (keySelector item)) name) items.

(** What one turn of the loop of [groupComparedBy] does to the groups,
    read from the front: the value goes to the first group whose key
    compares equal, or to a new group at the end. *)
Fixpoint placeInGroup {TKey V : Type} (keyComparer : TKey → TKey → bool)
    (k : TKey) (v : V) (result : list (KeyValue TKey (list V)))
    : list (KeyValue TKey (list V)) :=
  match result with
  | [] => [MkKeyValue k [v]]
  | group :: rest =>
      if keyComparer (key group) k
      then MkKeyValue (key group) (value group ++ [v]) :: rest
      else group :: placeInGroup keyComparer k v rest
  end.

(** The keys in the order in which they are first met: a key is kept
    at the end unless a key kept before it compares equal to it. *)
Definition keysFirstMet {TKey : Type} (keyComparer : TKey → TKey → bool)
    (keys : list TKey) : list TKey :=
  foldl (fun kept k => if existsb (fun g => keyComparer g k) kept then kept
                       else kept ++ [k])
    [] keys.

(** The groups that the loop of [groupComparedBy] has built after the
    whole of [items]. *)
Definition groupsOf {T TKey V : Type} (keySelector : T → TKey)
    (keyComparer : TKey → TKey → bool) (valueSelector : T → V) (items : list T)
    : list (KeyValue TKey (list V)) :=
  foldl (groupComparedByBody keySelector keyComparer valueSelector) [] items.

(** [l] is an interleaving of [l1] and [l2] that keeps the order of both. *)
Inductive Interleaving {T : Type} : list T → list T → list T → Prop :=
  | interleaving_nil : Interleaving [] [] []
  | interleaving_left x l1 l2 l :
      Interleaving l1 l2 l → Interleaving (x :: l1) l2 (x :: l)
  | interleaving_right x l1 l2 l :
      Interleaving l1 l2 l → Interleaving l1 (x :: l2) (x :: l).

(** * Properties *)

(** ** Driving an iterator *)

Section Driving.
Context {T St : Type} (nxt : St → Step T St).

Lemma pull_S fuel s :
  pull nxt (S fuel) s =
    match nxt s with
    | Done => ([], true)
    | Tau s' => pull nxt fuel s'
    | Yield v s' => (v :: (pull nxt fuel s').1, (pull nxt fuel s').2)
    end.
Proof. reflexivity. Qed.

(** Once an iterator has returned, more fuel changes nothing. *)
Lemma pull_done_more fuel : ∀ s l extra,
  pull nxt fuel s = (l, true) → pull nxt (fuel + extra) s = (l, true).
Proof.
  induction fuel as [|fuel IH]; intros s l extra; [discriminate|].
  cbn [Nat.add]. rewrite !pull_S. destruct (nxt s) as [|s'|v s']; [done|apply IH|].
  destruct (pull nxt fuel s') as [l' d] eqn:E; cbn. intros [= <- ->].
  by rewrite (IH _ _ extra E).
Qed.

(** With more fuel the values yielded so far stay in front. *)
Lemma pull_prefix_more fuel : ∀ s extra,
  (pull nxt fuel s).1 `prefix_of` (pull nxt (fuel + extra) s).1.
Proof.
  induction fuel as [|fuel IH]; intros s extra; [apply prefix_nil|].
  cbn [Nat.add]. rewrite !pull_S. destruct (nxt s) as [|s'|v s']; cbn; [done|apply IH|].
  apply prefix_cons, IH.
Qed.
End Driving.

Lemma Yields_unique {T : Type} (source : Iterable T) l1 l2 :
  Yields source l1 → Yields source l2 → l1 = l2.
Proof.
  intros [n1 H1] [n2 H2]. unfold drive in *.
  apply (pull_done_more _ _ _ _ n2) in H1. apply (pull_done_more _ _ _ _ n1) in H2.
  rewrite (Nat.add_comm n2 n1) in H2. congruence.
Qed.

Lemma Prefix_of_Yields {T : Type} (source : Iterable T) l1 l2 :
  Prefix source l1 → Yields source l2 → l1 `prefix_of` l2.
Proof.
  intros [d [n1 H1]] [n2 H2]. unfold drive in *.
  apply (pull_done_more _ _ _ _ n1) in H2.
  pose proof (pull_prefix_more (next source) n1 (iterator source) n2) as P.
  rewrite H1 in P. rewrite (Nat.add_comm n1 n2), H2 in P. exact P.
Qed.

Lemma pull_array {T : Type} (l : list T) :
  pull arrayNext (S (length l)) l = (l, true).
Proof.
  induction l as [|x l IH]; [done|].
  change (length (x :: l)) with (S (length l)).
  rewrite pull_S. cbn [arrayNext]. by rewrite IH.
Qed.

Lemma fromArray_Yields {T : Type} (l : list T) : Yields (fromArray l) l.
Proof. exists (S (length l)). apply pull_array. Qed.

(** ** Helper facts on lists *)

Lemma filter_bool_sublist {T : Type} (p : T → bool) (l : list T) :
  List.filter p l `sublist_of` l.
Proof.
  induction l as [|x l IH]; cbn; [constructor|].
  destruct (p x); by constructor.
Qed.

Lemma mapIndexed_const {T R : Type} (f : T → R) (l : list T) : ∀ i,
  mapIndexed (fun item _ => f item) i l = f <$> l.
Proof. induction l as [|x l IH]; intros i; cbn; [done|]. by rewrite IH. Qed.

(** ** The generators, step by step *)

Section Simulation.
Context {T : Type}.
Implicit Types source : Iterable T.

Lemma pull_map {R : Type} source (selector : T → Z → R) fuel : ∀ i s,
  pull (mapNext source selector) fuel (i, s) =
    (mapIndexed selector i (pull (next source) fuel s).1,
     (pull (next source) fuel s).2).
Proof.
  induction fuel as [|fuel IH]; intros i s; [done|].
  rewrite !pull_S. cbn [mapNext].
  destruct (next source s) as [|s'|v s']; cbn; [done|apply IH|].
  by rewrite IH.
Qed.

Lemma pull_filter source (condition : T → Z → bool) fuel : ∀ i s,
  pull (filterNext source condition) fuel (i, s) =
    (List.filter (fun item => condition item i) (pull (next source) fuel s).1,
     (pull (next source) fuel s).2).
Proof.
  induction fuel as [|fuel IH]; intros i s; [done|].
  rewrite !pull_S. cbn [filterNext].
  destruct (next source s) as [|s'|v s']; cbn; [done|apply IH|].
  destruct (condition v i); by rewrite IH.
Qed.

Lemma pull_passing source fuel : ∀ s,
  pull (skipNext source) fuel (Passing s) = pull (next source) fuel s.
Proof.
  induction fuel as [|fuel IH]; intros s; [done|].
  rewrite !pull_S. cbn [skipNext].
  destruct (next source s) as [|s'|v s']; cbn; [done|apply IH|].
  by rewrite IH.
Qed.

Lemma pull_skipping source fuel : ∀ count s,
  pull (skipNext source) fuel (Skipping count s) =
    (drop (Z.to_nat count) (pull (next source) fuel s).1,
     (pull (next source) fuel s).2).
Proof.
  induction fuel as [|fuel IH]; intros count s; [cbn; by rewrite drop_nil|].
  rewrite !pull_S. cbn [skipNext].
  destruct (next source s) as [|s'|v s']; cbn [fst snd]; [by rewrite drop_nil|apply IH|].
  destruct (Z.ltb_spec 0 count) as [Hc|Hc].
  - rewrite IH. replace (Z.to_nat count) with (S (Z.to_nat (count - 1))) by lia. done.
  - rewrite pull_passing. replace (Z.to_nat count) with O by lia. done.
Qed.

Lemma pull_take source fuel : ∀ count s,
  pull (takeNext source) fuel (count, s) =
    (take (Z.to_nat count) (pull (next source) fuel s).1,
     (pull (next source) fuel s).2
     || bool_decide (Z.to_nat count < length (pull (next source) fuel s).1)%nat).
Proof.
  induction fuel as [|fuel IH]; intros count s.
  { cbn. by rewrite take_nil. }
  rewrite !pull_S. cbn [takeNext].
  destruct (next source s) as [|s'|v s']; cbn [fst snd]; [by rewrite take_nil|apply IH|].
  destruct (Z.ltb_spec 0 count) as [Hc|Hc].
  - rewrite IH. cbn [fst snd length].
    replace (Z.to_nat count) with (S (Z.to_nat (count - 1))) by lia.
    cbn [take]. do 2 f_equal. apply bool_decide_ext. lia.
  - replace (Z.to_nat count) with O by lia. cbn [take length].
    rewrite bool_decide_eq_true_2 by lia. by rewrite orb_true_r.
Qed.

Lemma pull_append_loop source (element : T) fuel : ∀ s,
  pull (appendNext source element) fuel (Some s) = pull (next source) fuel s.
Proof.
  induction fuel as [|fuel IH]; intros s; [done|].
  rewrite !pull_S. cbn [appendNext].
  destruct (next source s) as [|s'|v s']; cbn; [done|apply IH|].
  by rewrite IH.
Qed.

Lemma drive_append source (element : T) fuel :
  drive (S fuel) (appendGenerator source element) =
    (element :: (drive fuel source).1, (drive fuel source).2).
Proof.
  unfold drive. cbn [State next iterator appendGenerator].
  rewrite pull_S. cbn [appendNext]. by rewrite pull_append_loop.
Qed.

Lemma pull_prepend_running source (element : T) fuel : ∀ s l,
  pull (next source) fuel s = (l, false) →
  pull (prependNext source element) fuel (Some s) = (l, false).
Proof.
  induction fuel as [|fuel IH]; intros s l; [done|].
  rewrite !pull_S. cbn [prependNext].
  destruct (next source s) as [|s'|v s']; [done|apply IH|].
  destruct (pull (next source) fuel s') as [l' d] eqn:E; cbn.
  intros [= <- ->]. by rewrite (IH _ _ E).
Qed.

Lemma pull_prepend_done source (element : T) fuel : ∀ s l,
  pull (next source) fuel s = (l, true) →
  pull (prependNext source element) (S fuel) (Some s) = (l ++ [element], true).
Proof.
  induction fuel as [|fuel IH]; intros s l; [done|].
  rewrite (pull_S _ fuel), (pull_S _ (S fuel)). cbn [prependNext].
  destruct (next source s) as [|s'|v s'].
  - intros [= <-]. by rewrite pull_S.
  - apply IH.
  - destruct (pull (next source) fuel s') as [l' d] eqn:E; cbn [fst snd].
    intros [= <- ->]. by rewrite (IH _ _ E).
Qed.

Lemma pull_concat_other source other fuel : ∀ s,
  pull (concatNext source other) fuel (inr s) = pull (next other) fuel s.
Proof.
  induction fuel as [|fuel IH]; intros s; [done|].
  rewrite !pull_S. cbn [concatNext].
  destruct (next other s) as [|s'|v s']; cbn; [done|apply IH|].
  by rewrite IH.
Qed.

Lemma pull_concat_running source other fuel : ∀ s l,
  pull (next source) fuel s = (l, false) →
  pull (concatNext source other) fuel (inl s) = (l, false).
Proof.
  induction fuel as [|fuel IH]; intros s l; [done|].
  rewrite !pull_S. cbn [concatNext].
  destruct (next source s) as [|s'|v s']; [done|apply IH|].
  destruct (pull (next source) fuel s') as [l' d] eqn:E; cbn.
  intros [= <- ->]. by rewrite (IH _ _ E).
Qed.

Lemma pull_concat_done source other fuel : ∀ s l,
  pull (next source) fuel s = (l, true) →
  ∃ k, ∀ m,
    pull (concatNext source other) (k + m) (inl s) =
      (l ++ (drive m other).1, (drive m other).2).
Proof.
  induction fuel as [|fuel IH]; intros s l; [done|].
  rewrite pull_S.
  destruct (next source s) as [|s'|v s'] eqn:E.
  - intros [= <-]. exists 1%nat. intros m. cbn [Nat.add]. rewrite pull_S.
    cbn [concatNext]. rewrite E, pull_concat_other. unfold drive.
    by destruct (pull (next other) m (iterator other)).
  - intros Hs. destruct (IH _ _ Hs) as [k Hk]. exists (S k). intros m.
    cbn [Nat.add]. rewrite pull_S. cbn [concatNext]. rewrite E. apply Hk.
  - destruct (pull (next source) fuel s') as [l' d] eqn:E'; cbn.
    intros [= <- ->]. destruct (IH _ _ E') as [k Hk]. exists (S k). intros m.
    cbn [Nat.add]. rewrite pull_S. cbn [concatNext]. rewrite E, Hk. done.
Qed.

Lemma pull_emitting source (buffer : list T) : ∀ k i,
  (i + k = length buffer)%nat →
  pull (reverseNext source) (S k) (Emitting buffer i) =
    (reverse (take k buffer), true).
Proof.
  induction k as [|k IH]; intros i Hi; rewrite pull_S; cbn [reverseNext].
  - rewrite bool_decide_eq_false_2 by lia. done.
  - rewrite bool_decide_eq_true_2 by lia.
    replace (length buffer - i - 1)%nat with k by lia.
    destruct (lookup_lt_is_Some_2 buffer k) as [x Hx]; [lia|].
    rewrite Hx, IH by lia. cbn [fst snd].
    by rewrite (take_S_r _ _ _ Hx), reverse_snoc.
Qed.

Lemma pull_buffering_running source fuel : ∀ buffer s l,
  pull (next source) fuel s = (l, false) →
  pull (reverseNext source) fuel (Buffering buffer s) = ([], false).
Proof.
  induction fuel as [|fuel IH]; intros buffer s l; [done|].
  rewrite !pull_S. cbn [reverseNext].
  destruct (next source s) as [|s'|v s']; [done|apply IH|].
  destruct (pull (next source) fuel s') as [l' d] eqn:E; cbn.
  intros [= <- ->]. by apply (IH _ _ l').
Qed.

Lemma pull_buffering_done source fuel : ∀ buffer s l,
  pull (next source) fuel s = (l, true) →
  ∃ k, ∀ m,
    pull (reverseNext source) (k + m) (Buffering buffer s) =
      pull (reverseNext source) m (Emitting (buffer ++ l) 0).
Proof.
  induction fuel as [|fuel IH]; intros buffer s l; [done|].
  rewrite pull_S.
  destruct (next source s) as [|s'|v s'] eqn:E.
  - intros [= <-]. exists 1%nat. intros m. cbn [Nat.add]. rewrite pull_S.
    cbn [reverseNext]. by rewrite E, app_nil_r.
  - intros Hs. destruct (IH buffer _ _ Hs) as [k Hk]. exists (S k). intros m.
    cbn [Nat.add]. rewrite pull_S. cbn [reverseNext]. rewrite E. apply Hk.
  - destruct (pull (next source) fuel s') as [l' d] eqn:E'; cbn.
    intros [= <- ->]. destruct (IH (buffer ++ [v]) _ _ E') as [k Hk].
    exists (S k). intros m.
    cbn [Nat.add]. rewrite pull_S. cbn [reverseNext]. rewrite E, Hk.
    by rewrite <- app_assoc.
Qed.

Lemma reverse_Yields source l :
  Yields source l → Yields (reverseGenerator source) (reverse l).
Proof.
  intros [fuel Hf]. destruct (pull_buffering_done source fuel [] _ _ Hf) as [k Hk].
  exists (k + S (length l))%nat. unfold drive. cbn [State next iterator reverseGenerator].
  rewrite Hk. cbn [app]. rewrite (pull_emitting source l (length l) 0) by lia.
  by rewrite firstn_all.
Qed.
End Simulation.

(** ** The set operators, step by step *)

Section SetSimulation.
Context {T K : Type} `{Countable K}.
Implicit Types (source first second : Iterable T) (identity : T → K) (set : gset K).

Lemma elem_of_addAll (keys : list K) : ∀ set k,
  k ∈ addAll set keys ↔ k ∈ set ∨ k ∈ keys.
Proof.
  unfold addAll. induction keys as [|k' keys IH]; intros set k; cbn [foldl].
  - rewrite elem_of_nil. tauto.
  - rewrite IH, elem_of_cons, elem_of_union, elem_of_singleton. tauto.
Qed.

Lemma firstOccurrences_sublist identity (l : list T) : ∀ seen,
  firstOccurrences identity seen l `sublist_of` l.
Proof.
  induction l as [|x l IH]; intros seen; cbn; [constructor|].
  case_bool_decide; by constructor.
Qed.

Lemma firstOccurrences_fresh identity (l : list T) : ∀ seen x,
  x ∈ firstOccurrences identity seen l → identity x ∉ seen.
Proof.
  induction l as [|y l IH]; intros seen x; cbn; [by rewrite elem_of_nil|].
  case_bool_decide as Hy; [apply IH|].
  rewrite elem_of_cons. intros [->|Hx]; [done|].
  apply IH in Hx. set_solver.
Qed.

Lemma firstOccurrences_NoDup identity (l : list T) : ∀ seen,
  NoDup (identity <$> firstOccurrences identity seen l).
Proof.
  induction l as [|y l IH]; intros seen; cbn; [constructor|].
  case_bool_decide as Hy; [apply IH|].
  cbn. constructor; [|apply IH].
  rewrite list_elem_of_fmap. intros (x & Hk & Hx).
  apply firstOccurrences_fresh in Hx. set_solver.
Qed.

(** No identity of the input is lost. *)
Lemma firstOccurrences_complete identity (l : list T) : ∀ seen k,
  k ∈ identity <$> l →
  k ∈ seen ∨ k ∈ identity <$> firstOccurrences identity seen l.
Proof.
  induction l as [|y l IH]; intros seen k; cbn; [by rewrite elem_of_nil|].
  rewrite elem_of_cons. intros [->|Hk].
  - case_bool_decide; [by left|right; cbn; apply elem_of_cons; by left].
  - case_bool_decide as Hy; [by apply IH|].
    destruct (IH ({[identity y]} ∪ seen) k Hk) as [Hs|Hr].
    + apply elem_of_union in Hs as [Hs|Hs]; [|by left].
      apply elem_of_singleton in Hs as ->. right. cbn. apply elem_of_cons. by left.
    + right. cbn. apply elem_of_cons. by right.
Qed.

(** An element that comes out sits in the input at a position before
    which its identity does not occur. *)
Lemma firstOccurrences_first identity (l : list T) : ∀ seen x,
  x ∈ firstOccurrences identity seen l →
  ∃ j, l !! j = Some x ∧
       ∀ j' y, (j' < j)%nat → l !! j' = Some y → identity y ≠ identity x.
Proof.
  induction l as [|y l IH]; intros seen x; cbn [firstOccurrences];
    [by rewrite elem_of_nil|].
  case_bool_decide as Hy.
  - intros Hx. pose proof (firstOccurrences_fresh _ _ _ _ Hx) as Hfresh.
    destruct (IH _ _ Hx) as (j & Hj & Hbefore). exists (S j). split; [done|].
    intros [|j'] z Hlt; cbn; [intros [= <-]; congruence|].
    apply Hbefore. lia.
  - rewrite elem_of_cons. intros [->|Hx].
    + exists O. split; [done|]. intros j' z Hlt. lia.
    + pose proof (firstOccurrences_fresh _ _ _ _ Hx) as Hfresh.
      destruct (IH _ _ Hx) as (j & Hj & Hbefore). exists (S j). split; [done|].
      intros [|j'] z Hlt; cbn; [intros [= <-]; set_solver|].
      apply Hbefore. lia.
Qed.

Lemma pull_distinct source identity fuel : ∀ set s,
  pull (distinctNext source identity) fuel (set, s) =
    (firstOccurrences identity set (pull (next source) fuel s).1,
     (pull (next source) fuel s).2).
Proof.
  induction fuel as [|fuel IH]; intros set s; [done|].
  rewrite !pull_S. cbn [distinctNext].
  destruct (next source s) as [|s'|v s']; cbn [fst snd firstOccurrences];
    [done|apply IH|].
  case_bool_decide; cbn [negb]; by rewrite IH.
Qed.

Lemma pull_except_streaming first second identity fuel : ∀ set s,
  pull (exceptNext first second identity) fuel (Streaming set s) =
    (List.filter (fun item => negb (bool_decide (identity item ∈ set)))
       (pull (next first) fuel s).1,
     (pull (next first) fuel s).2).
Proof.
  induction fuel as [|fuel IH]; intros set s; [done|].
  rewrite !pull_S. cbn [exceptNext].
  destruct (next first s) as [|s'|v s']; cbn [fst snd List.filter];
    [done|apply IH|].
  case_bool_decide; cbn [negb]; by rewrite IH.
Qed.

Lemma pull_intersect_streaming first second identity fuel : ∀ set s,
  pull (intersectNext first second identity) fuel (Streaming set s) =
    (List.filter (fun item => bool_decide (identity item ∈ set))
       (pull (next first) fuel s).1,
     (pull (next first) fuel s).2).
Proof.
  induction fuel as [|fuel IH]; intros set s; [done|].
  rewrite !pull_S. cbn [intersectNext].
  destruct (next first s) as [|s'|v s']; cbn [fst snd List.filter];
    [done|apply IH|].
  case_bool_decide; by rewrite IH.
Qed.

(** One step of the [Collecting] phase, shared by both operators. *)
Ltac collecting_step :=
  rewrite ?pull_S;
  cbn [exceptNext intersectNext stringified mapGenerator mapNext next iterator].

Lemma pull_except_collected first second identity fuel : ∀ set i s l,
  pull (next second) fuel s = (l, true) →
  ∃ k, ∀ m,
    pull (exceptNext first second identity) (k + m) (Collecting set (i, s)) =
      pull (exceptNext first second identity) m
        (Streaming (addAll set (identity <$> l)) (iterator first)).
Proof.
  induction fuel as [|fuel IH]; intros set i s l; [done|].
  rewrite pull_S. destruct (next second s) as [|s'|v s'] eqn:E.
  - intros [= <-]. exists 1%nat. intros m. cbn [Nat.add]. collecting_step.
    by rewrite E.
  - intros Hs. destruct (IH set i _ _ Hs) as [k Hk]. exists (S k). intros m.
    cbn [Nat.add]. collecting_step. rewrite E. apply Hk.
  - destruct (pull (next second) fuel s') as [l' d] eqn:E'; cbn [fst snd].
    intros [= <- ->].
    destruct (IH ({[identity v]} ∪ set) (i + 1) _ _ E') as [k Hk].
    exists (S k). intros m. cbn [Nat.add]. collecting_step. rewrite E. apply Hk.
Qed.

Lemma pull_intersect_collected first second identity fuel : ∀ set i s l,
  pull (next second) fuel s = (l, true) →
  ∃ k, ∀ m,
    pull (intersectNext first second identity) (k + m) (Collecting set (i, s)) =
      pull (intersectNext first second identity) m
        (Streaming (addAll set (identity <$> l)) (iterator first)).
Proof.
  induction fuel as [|fuel IH]; intros set i s l; [done|].
  rewrite pull_S. destruct (next second s) as [|s'|v s'] eqn:E.
  - intros [= <-]. exists 1%nat. intros m. cbn [Nat.add]. collecting_step.
    by rewrite E.
  - intros Hs. destruct (IH set i _ _ Hs) as [k Hk]. exists (S k). intros m.
    cbn [Nat.add]. collecting_step. rewrite E. apply Hk.
  - destruct (pull (next second) fuel s') as [l' d] eqn:E'; cbn [fst snd].
    intros [= <- ->].
    destruct (IH ({[identity v]} ∪ set) (i + 1) _ _ E') as [k Hk].
    exists (S k). intros m. cbn [Nat.add]. collecting_step. rewrite E. apply Hk.
Qed.

(** Whatever [second] does, what comes out is taken from [first] in order. *)
Lemma pull_except_sublist first second identity fuel : ∀ set i s,
  ∃ fuel',
    (pull (exceptNext first second identity) fuel (Collecting set (i, s))).1
      `sublist_of` (drive fuel' first).1.
Proof.
  induction fuel as [|fuel IH]; intros set i s.
  { exists O. apply sublist_nil_l. }
  collecting_step. destruct (next second s) as [|s'|v s']; [|apply IH..].
  exists fuel. rewrite pull_except_streaming. apply filter_bool_sublist.
Qed.

Lemma pull_intersect_sublist first second identity fuel : ∀ set i s,
  ∃ fuel',
    (pull (intersectNext first second identity) fuel (Collecting set (i, s))).1
      `sublist_of` (drive fuel' first).1.
Proof.
  induction fuel as [|fuel IH]; intros set i s.
  { exists O. apply sublist_nil_l. }
  collecting_step. destruct (next second s) as [|s'|v s']; [|apply IH..].
  exists fuel. rewrite pull_intersect_streaming. apply filter_bool_sublist.
Qed.
End SetSimulation.

(** ** The generators from their initial state *)

Section Drive.
Context {T : Type}.
Implicit Types source other : Iterable T.

Lemma drive_map {R : Type} source (selector : T → Z → R) fuel :
  drive fuel (mapGenerator source selector) =
    (mapIndexed selector 0 (drive fuel source).1, (drive fuel source).2).
Proof. apply pull_map. Qed.

Lemma drive_filter source (condition : T → Z → bool) fuel :
  drive fuel (filterGenerator source condition) =
    (List.filter (fun item => condition item 0) (drive fuel source).1,
     (drive fuel source).2).
Proof. apply pull_filter. Qed.

Lemma drive_skip source count fuel :
  drive fuel (skipGenerator source count) =
    (drop (Z.to_nat count) (drive fuel source).1, (drive fuel source).2).
Proof. apply pull_skipping. Qed.

Lemma drive_take source count fuel :
  drive fuel (takeGenerator source count) =
    (take (Z.to_nat count) (drive fuel source).1,
     (drive fuel source).2
     || bool_decide (Z.to_nat count < length (drive fuel source).1)%nat).
Proof. apply pull_take. Qed.

Lemma drive_skip_nonpositive source count fuel :
  count ≤ 0 → drive fuel (skipGenerator source count) = drive fuel source.
Proof.
  intros Hc. rewrite drive_skip. replace (Z.to_nat count) with O by lia.
  by destruct (drive fuel source).
Qed.

Lemma append_Produces source (element : T) l done :
  Produces source l done →
  Produces (appendGenerator source element) (element :: l) done.
Proof. intros [fuel Hf]. exists (S fuel). by rewrite drive_append, Hf. Qed.

Lemma prepend_Produces source (element : T) l done :
  Produces source l done →
  Produces (prependGenerator source element)
    (if done then l ++ [element] else l) done.
Proof.
  intros [fuel Hf]. destruct done.
  - exists (S fuel). by apply pull_prepend_done.
  - exists fuel. by apply pull_prepend_running.
Qed.

Lemma concat_Produces_first source other l :
  Produces source l false → Produces (concatGenerator source other) l false.
Proof. intros [fuel Hf]. exists fuel. by apply pull_concat_running. Qed.

Lemma concat_Produces source other l1 l2 done :
  Yields source l1 → Produces other l2 done →
  Produces (concatGenerator source other) (l1 ++ l2) done.
Proof.
  intros [fuel Hf] [m Hm].
  destruct (pull_concat_done source other fuel _ _ Hf) as [k Hk].
  exists (k + m)%nat. unfold drive at 1. cbn [State next iterator concatGenerator].
  by rewrite Hk, Hm.
Qed.

Lemma range_empty start count : count ≤ 0 → drive 1 (rangeGenerator start count) = ([], true).
Proof.
  intros Hc. unfold drive. cbn [State next iterator rangeGenerator]. rewrite pull_S.
  by destruct (Z.ltb_spec 0 count); [lia|].
Qed.

Lemma repeat_empty (value : T) count :
  count ≤ 0 → drive 1 (repeatGenerator value count) = ([], true).
Proof.
  intros Hc. unfold drive. cbn [State next iterator repeatGenerator]. rewrite pull_S.
  by destruct (Z.ltb_spec 0 count); [lia|].
Qed.
End Drive.

Section DriveSets.
Context {T K : Type} `{Countable K} (selfSelector : T → K).
Implicit Types (source first second : Iterable T) (stringifier : option (T → K)).

Lemma drive_distinct source stringifier fuel :
  drive fuel (distinctGenerator selfSelector source stringifier) =
    (firstOccurrences (orDefault stringifier selfSelector) ∅ (drive fuel source).1,
     (drive fuel source).2).
Proof. apply pull_distinct. Qed.

Lemma distinct_Produces source stringifier l done :
  Produces source l done →
  Produces (distinctGenerator selfSelector source stringifier)
    (firstOccurrences (orDefault stringifier selfSelector) ∅ l) done.
Proof. intros [fuel Hf]. exists fuel. by rewrite drive_distinct, Hf. Qed.

Lemma except_Produces first second stringifier l1 l2 done :
  Yields second l2 → Produces first l1 done →
  let identity := orDefault stringifier selfSelector in
  Produces (exceptGenerator selfSelector first second stringifier)
    (List.filter
       (fun item => negb (bool_decide (identity item ∈ addAll ∅ (identity <$> l2)))) l1)
    done.
Proof.
  intros [fuel Hf] [m Hm] identity.
  destruct (pull_except_collected first second identity fuel ∅ 0 _ _ Hf) as [k Hk].
  exists (k + m)%nat. unfold drive at 1.
  cbn [State next iterator exceptGenerator stringified mapGenerator].
  etrans; [apply Hk|]. rewrite pull_except_streaming.
  unfold drive in Hm. by rewrite Hm.
Qed.

Lemma intersect_Produces first second stringifier l1 l2 done :
  Yields second l2 → Produces first l1 done →
  let identity := orDefault stringifier selfSelector in
  Produces (intersectGenerator selfSelector first second stringifier)
    (List.filter
       (fun item => bool_decide (identity item ∈ addAll ∅ (identity <$> l2))) l1)
    done.
Proof.
  intros [fuel Hf] [m Hm] identity.
  destruct (pull_intersect_collected first second identity fuel ∅ 0 _ _ Hf) as [k Hk].
  exists (k + m)%nat. unfold drive at 1.
  cbn [State next iterator intersectGenerator stringified mapGenerator].
  etrans; [apply Hk|]. rewrite pull_intersect_streaming.
  unfold drive in Hm. by rewrite Hm.
Qed.
End DriveSets.

(** Splitting a list by a test gives two lists that interleave back to it. *)
Lemma filter_Interleaving {T : Type} (p : T → bool) (l : list T) :
  Interleaving (List.filter (fun x => negb (p x)) l) (List.filter p l) l.
Proof.
  induction l as [|x l IH]; cbn; [constructor|].
  destruct (p x); cbn; by constructor.
Qed.

Lemma Interleaving_Permutation {T : Type} (l1 l2 l : list T) :
  Interleaving l1 l2 l → l1 ++ l2 ≡ₚ l.
Proof.
  induction 1 as [|x l1 l2 l _ IH|x l1 l2 l _ IH]; cbn; [done|by f_equiv|].
  by rewrite <- Permutation_middle, IH.
Qed.

Lemma Interleaving_sublists {T : Type} (l1 l2 l : list T) :
  Interleaving l1 l2 l → l1 `sublist_of` l ∧ l2 `sublist_of` l.
Proof.
  induction 1 as [|x l1 l2 l _ [IH1 IH2]|x l1 l2 l _ [IH1 IH2]];
    split; by constructor.
Qed.

(** ** Objects *)

Lemma pull_object {V : Type} (obj : JsObject V) (keys : list string) :
  pull (objectNext obj) (S (length keys)) keys =
    (omap (fun name => MkKeyValue name <$> getProp name obj) keys, true).
Proof.
  induction keys as [|name keys IH]; [done|].
  change (length (name :: keys)) with (S (length keys)).
  rewrite pull_S. cbn [objectNext].
  destruct (getProp name obj) as [v|] eqn:E; rewrite IH; cbn; by rewrite E.
Qed.

(** [objectGenerator] yields the own properties in the order of [ownKeys]. *)
Lemma objectGenerator_Yields {V : Type} (obj : JsObject V) :
  Yields (objectGenerator obj)
    (omap (fun name => MkKeyValue name <$> getProp name obj) (ownKeys obj)).
Proof. exists (S (length (ownKeys obj))). apply pull_object. Qed.

(** The own keys are the array indices in ascending order, followed by
    the other names in the order of creation. *)
Lemma ownKeys_order {V : Type} (obj : JsObject V) :
  ∃ indices : list N,
    Sorted N.le indices ∧
    indices ≡ₚ omap arrayIndex obj.*1 ∧
    ownKeys obj =
      (pretty <$> indices)
      ++ List.filter (fun name => bool_decide (arrayIndex name = None)) obj.*1.
Proof.
  exists (merge_sort N.le (omap arrayIndex obj.*1)).
  split; [apply (Sorted_merge_sort N.le)|]. split; [apply merge_sort_Permutation|done].
Qed.

(** ** Grouping *)

Lemma getProp_setProp_eq {V : Type} (name : string) (v : V) (obj : JsObject V) :
  getProp name (setProp name v obj) = Some v.
Proof.
  induction obj as [|[name' v'] obj IH]; cbn.
  - by rewrite String.eqb_refl.
  - destruct (String.eqb name name') eqn:E; cbn; rewrite E; [done|apply IH].
Qed.

Lemma getProp_setProp_ne {V : Type} (name name' : string) (v : V) (obj : JsObject V) :
  name ≠ name' → getProp name (setProp name' v obj) = getProp name obj.
Proof.
  intros Hne. induction obj as [|[name'' v''] obj IH]; cbn.
  - by apply String.eqb_neq in Hne as ->.
  - destruct (String.eqb name' name'') eqn:E; cbn; [|by rewrite IH].
    apply String.eqb_eq in E as <-. by apply String.eqb_neq in Hne as ->.
Qed.

Section GroupingFacts.
Context {T V : Type}.

(** A loop that is run to completion folds its body over what the
    source yields. *)
Lemma forOf_finished {A : Type} (source : Iterable T) (body : A → T → A) fuel :
  ∀ s acc l,
    pull (next source) fuel s = (l, true) →
    forOf source body fuel s acc = Some (foldl body acc l).
Proof.
  induction fuel as [|fuel IH]; intros s acc l; [done|].
  rewrite pull_S. cbn [forOf].
  destruct (next source s) as [|s'|v s']; [by intros [= <-]|apply IH|].
  destruct (pull (next source) fuel s') as [l' d] eqn:E; cbn [fst snd].
  intros [= <- ->]. cbn [foldl]. by apply IH.
Qed.

Lemma groupByBody_get (keySelector : T → PropertyKey) (valueSelector : T → V)
    (record : JsObject (list V)) (item : T) (name : string) :
  getProp name (groupByBody keySelector valueSelector record item) =
    if String.eqb (ToPropertyKey (keySelector item)) name
    then Some (default [] (getProp name record) ++ [valueSelector item])
    else getProp name record.
Proof.
  unfold groupByBody. cbv zeta.
  destruct (String.eqb_spec (ToPropertyKey (keySelector item)) name) as [->|Hne].
  - destruct (getProp name record) as [values|] eqn:E; cbn [default].
    + rewrite E. cbn. by rewrite getProp_setProp_eq.
    + rewrite getProp_setProp_eq. cbn. by rewrite getProp_setProp_eq.
  - destruct (getProp (ToPropertyKey (keySelector item)) record) as [values|] eqn:E.
    + rewrite E. by apply getProp_setProp_ne.
    + rewrite getProp_setProp_eq. by rewrite !getProp_setProp_ne by done.
Qed.

Lemma groupBy_bucket (keySelector : T → PropertyKey) (valueSelector : T → V)
    (name : string) (items : list T) : ∀ record,
  getProp name (foldl (groupByBody keySelector valueSelector) record items) =
    match getProp name record, bucketOf keySelector valueSelector name items with
    | None, [] => None
    | o, bucket => Some (default [] o ++ bucket)
    end.
Proof.
  unfold bucketOf.
  induction items as [|item items IH]; intros record; cbn [foldl List.filter].
  - destruct (getProp name record); cbn; [by rewrite app_nil_r|done].
  - rewrite IH, groupByBody_get.
    destruct (String.eqb (ToPropertyKey (keySelector item)) name); cbn.
    + destruct (getProp name record); cbn; by rewrite <- ?app_assoc.
    + done.
Qed.

(** For a finite source, [groupBy] returns the generator over the record
    in which every key holds the values selected from its items, in
    source order, and the groups come out in the order of [ownKeys]. *)
Lemma groupBy_groups (selfSelector : T → V) (source : Iterable T)
    (keySelector : T → PropertyKey) (valueSelector : option (T → V)) (items : list T) :
  Yields source items →
  ∃ fuel record,
    groupByGenerator selfSelector fuel source keySelector valueSelector =
      Some (objectGenerator record) ∧
    (∀ name,
       getProp name record =
         match bucketOf keySelector (orDefault valueSelector selfSelector) name items with
         | [] => None
         | bucket => Some bucket
         end) ∧
    Yields (objectGenerator record)
      (omap (fun name => MkKeyValue name <$> getProp name record) (ownKeys record)).
Proof.
  intros [fuel Hf].
  exists fuel,
    (foldl (groupByBody keySelector (orDefault valueSelector selfSelector)) [] items).
  unfold groupByGenerator. cbv zeta.
  rewrite (forOf_finished source
             (groupByBody keySelector (orDefault valueSelector selfSelector))
             fuel (iterator source) ([] : JsObject (list V)) items Hf).
  split; [done|]. split; [|apply objectGenerator_Yields].
  intros name. rewrite groupBy_bucket. cbn [getProp].
  by destruct (bucketOf _ _ name items).
Qed.
End GroupingFacts.

(** ** Upstream order through [prepend] and [concat] *)

Lemma drive_prepend_sublist {T : Type} (source : Iterable T) (element : T) fuel :
  (drive fuel source).1 `sublist_of` (drive (S fuel) (prependGenerator source element)).1.
Proof.
  unfold drive. cbn [State next iterator prependGenerator].
  destruct (pull (next source) fuel (iterator source)) as [l [|]] eqn:E; cbn [fst].
  - rewrite (pull_prepend_done _ element _ _ _ E). cbn [fst].
    by apply sublist_inserts_r.
  - pose proof (pull_prefix_more (prependNext source element) fuel
                  (Some (iterator source)) 1) as [k Hk].
    rewrite (pull_prepend_running _ element _ _ _ E) in Hk. cbn [fst] in Hk.
    rewrite Nat.add_1_r in Hk. rewrite Hk. by apply sublist_inserts_r.
Qed.

Lemma drive_concat_sublist {T : Type} (source other : Iterable T) fuel :
  ∃ fuel', (drive fuel source).1 `sublist_of` (drive fuel' (concatGenerator source other)).1.
Proof.
  unfold drive. cbn [State next iterator concatGenerator].
  destruct (pull (next source) fuel (iterator source)) as [l [|]] eqn:E; cbn [fst].
  - destruct (pull_concat_done source other fuel _ _ E) as [k Hk].
    exists (k + 0)%nat. rewrite Hk. cbn [fst]. by apply sublist_inserts_r.
  - exists fuel. by rewrite (pull_concat_running _ other _ _ _ E).
Qed.

(** ** The worked examples of the specification *)

Lemma range_example : drive 6 (rangeGenerator 0 5) = ([0; 1; 2; 3; 4], true).
Proof. reflexivity. Qed.

Lemma take_example : drive 6 (takeGenerator (rangeGenerator 0 5) 2) = ([0; 1], true).
Proof. reflexivity. Qed.

Lemma skip_example : drive 6 (skipGenerator (rangeGenerator 0 5) 2) = ([2; 3; 4], true).
Proof. reflexivity. Qed.

(** A source that never returns: [take] bounds it, [skip] and [map] stream it. *)
Lemma take_unbounded_example :
  drive 4 (takeGenerator (countFrom 0) 3) = ([0; 1; 2], true).
Proof. reflexivity. Qed.

Lemma skip_unbounded_example :
  drive 5 (mapGenerator (skipGenerator (countFrom 0) 2) (fun item i => item * 10 + i)) =
    ([20; 31; 42], false).
Proof. reflexivity. Qed.

(** * The claims *)

(** C1 (the code departs from the claim).  The claim: [filter] calls the
    predicate with the zero-based count of the elements pulled so far.
    In [filterGenerator] the counter is never advanced: a predicate is
    only ever consulted at index 0, so on [[10; 20; 30]] the predicate
    "the index is 1" selects nothing, where counting the pulls selects 20. *)
Theorem filterGenerator_index_stays_zero :
  (∀ (T : Type) (source : Iterable T) (condition : T → Z → bool) (fuel : nat),
     drive fuel (filterGenerator source condition) =
       (List.filter (fun item => condition item 0) (drive fuel source).1,
        (drive fuel source).2))
  ∧ drive 4 (filterGenerator (fromArray [10; 20; 30]) (fun _ i => i =? 1)) = ([], true)
  ∧ filterByPullCount (fun (_ : Z) i => i =? 1) 0 [10; 20; 30] = [20].
Proof.
  split; [|split; reflexivity].
  intros T source condition fuel. apply drive_filter.
Qed.

(** C2.  Whatever [source] has produced, [append(source, element)]
    produces [element] and then the same elements, and
    [prepend(source, element)] produces the same elements, followed by
    [element] once [source] has returned. *)
Theorem append_first_prepend_last {T : Type} (source : Iterable T) (element : T)
    (l : list T) (done : bool) :
  Produces source l done →
  Produces (appendGenerator source element) (element :: l) done ∧
  Produces (prependGenerator source element) (if done then l ++ [element] else l) done.
Proof.
  intros Hs. split; [by apply append_Produces|by apply prepend_Produces].
Qed.

(** [append([1,2], 0)] yields [0,1,2] and [prepend([1,2], 3)] yields [1,2,3]. *)
Lemma append_first_prepend_last_witness :
  Yields (fromArray [1; 2]) [1; 2] ∧
  Yields (appendGenerator (fromArray [1; 2]) 0) [0; 1; 2] ∧
  Yields (prependGenerator (fromArray [1; 2]) 3) [1; 2; 3].
Proof.
  assert (Yields (fromArray [1; 2]) [1; 2]) as Hs by (exists 3%nat; reflexivity).
  split; [exact Hs|]. split.
  - exact (proj1 (append_first_prepend_last (fromArray [1; 2]) 0 [1; 2] true Hs)).
  - exact (proj2 (append_first_prepend_last (fromArray [1; 2]) 3 [1; 2] true Hs)).
Defined.

(** C3, as the code has it.  With [count <= 0], [fromRange] and
    [fromRepeat] yield nothing and return, [take] never yields an element
    and returns as soon as its source has answered its first pull, and
    [skip] skips nothing: it behaves as its source. *)
Theorem nonpositive_count {T : Type} (source : Iterable T) (start : Z) (value : T)
    (count : Z) :
  count ≤ 0 →
  Yields (rangeGenerator start count) [] ∧
  Yields (repeatGenerator value count) [] ∧
  (∀ fuel, (drive fuel (takeGenerator source count)).1 = []) ∧
  (∀ l done, Produces source l done → done = true ∨ l ≠ [] →
     Yields (takeGenerator source count) []) ∧
  (∀ fuel, drive fuel (skipGenerator source count) = drive fuel source).
Proof.
  intros Hc. split; [|split; [|split; [|split]]].
  - exists 1%nat. by apply range_empty.
  - exists 1%nat. by apply repeat_empty.
  - intros fuel. rewrite drive_take. by replace (Z.to_nat count) with O by lia.
  - intros l done [fuel Hf] Hl. exists fuel. rewrite drive_take, Hf.
    replace (Z.to_nat count) with O by lia. cbn [fst snd take]. f_equal.
    destruct Hl as [->|Hl]; [done|]. destruct l; [done|].
    by rewrite orb_true_r.
  - intros fuel. by apply drive_skip_nonpositive.
Qed.

Lemma nonpositive_count_witness :
  -1 ≤ 0 ∧
  Yields (rangeGenerator 5 (-1)) [] ∧
  Yields (takeGenerator (fromArray [1; 2]) (-1)) [] ∧
  drive 3 (skipGenerator (fromArray [1; 2]) (-1)) = ([1; 2], true).
Proof.
  pose proof (nonpositive_count (fromArray [1; 2]) 5 0 (-1) ltac:(lia))
    as (Hrange & _ & _ & Htake & Hskip).
  split; [lia|]. split; [exact Hrange|]. split.
  - apply (Htake [1; 2] true); [exists 3%nat; reflexivity|by left].
  - rewrite Hskip. reflexivity.
Defined.

(** C3 as stated fails for [skip]: with count 0, [skip([1,2], 0)] yields
    [1,2], not the empty sequence. *)
Lemma skip_zero_count_not_empty :
  0 ≤ 0 ∧
  Yields (skipGenerator (fromArray [1; 2]) 0) [1; 2] ∧
  ¬ Yields (skipGenerator (fromArray [1; 2]) 0) [].
Proof.
  split; [lia|]. assert (Yields (skipGenerator (fromArray [1; 2]) 0) [1; 2]) as Hy.
  { exists 3%nat. reflexivity. }
  split; [exact Hy|]. intros Hn.
  by pose proof (Yields_unique _ _ _ Hy Hn).
Qed.

(** C4.  [union(A, B, s)] is the very iterator [distinct(concat(A, B), s)],
    for every [A] and [B], finite or not: after any number of steps it
    has yielded, of what [concat(A, B)] has yielded, each element whose
    identity has not occurred before.  So for a finite [A] it yields the
    first occurrences among the elements of [A] followed by those of
    [B], and for an [A] that is still running those among [A]'s. *)
Theorem union_is_distinct_concat {T K : Type} `{Countable K} (selfSelector : T → K)
    (A B : Iterable T) (s : option (T → K)) (fuel : nat) :
  let identity := orDefault s selfSelector in
  unionGenerator selfSelector A B s =
    distinctGenerator selfSelector (concatGenerator A B) s ∧
  drive fuel (unionGenerator selfSelector A B s) =
    drive fuel (distinctGenerator selfSelector (concatGenerator A B) s) ∧
  drive fuel (unionGenerator selfSelector A B s) =
    (firstOccurrences identity ∅ (drive fuel (concatGenerator A B)).1,
     (drive fuel (concatGenerator A B)).2) ∧
  (∀ a b done, Yields A a → Produces B b done →
     Produces (distinctGenerator selfSelector (concatGenerator A B) s)
       (firstOccurrences identity ∅ (a ++ b)) done ∧
     Produces (unionGenerator selfSelector A B s)
       (firstOccurrences identity ∅ (a ++ b)) done) ∧
  (∀ a, Produces A a false →
     Produces (unionGenerator selfSelector A B s)
       (firstOccurrences identity ∅ a) false).
Proof.
  intros identity.
  assert (unionGenerator selfSelector A B s =
            distinctGenerator selfSelector (concatGenerator A B) s) as Heq
    by reflexivity.
  split; [exact Heq|]. split; [by rewrite Heq|].
  split; [rewrite Heq; apply drive_distinct|]. split.
  - intros a b done Ha Hb.
    assert (Produces (distinctGenerator selfSelector (concatGenerator A B) s)
              (firstOccurrences identity ∅ (a ++ b)) done) as Hd.
    { apply distinct_Produces. by apply concat_Produces. }
    split; [exact Hd|by rewrite Heq].
  - intros a Ha. rewrite Heq. apply distinct_Produces.
    by apply concat_Produces_first.
Qed.

Lemma union_is_distinct_concat_witness :
  Yields (fromArray [1; 2; 1]) [1; 2; 1] ∧
  Yields (fromArray [2; 3]) [2; 3] ∧
  Yields (unionGenerator id (fromArray [1; 2; 1]) (fromArray [2; 3]) None) [1; 2; 3] ∧
  Produces (countFrom 0) [0; 1; 2] false ∧
  Produces (unionGenerator id (countFrom 0) (fromArray [2; 3]) None) [0; 1; 2] false.
Proof.
  assert (Yields (fromArray [1; 2; 1]) [1; 2; 1]) as Ha by (exists 4%nat; reflexivity).
  assert (Yields (fromArray [2; 3]) [2; 3]) as Hb by (exists 3%nat; reflexivity).
  assert (Produces (countFrom 0) [0; 1; 2] false) as Hc by (exists 3%nat; reflexivity).
  split; [exact Ha|]. split; [exact Hb|]. split; [|split; [exact Hc|]].
  - destruct (union_is_distinct_concat id (fromArray [1; 2; 1]) (fromArray [2; 3])
                None 0) as (_ & _ & _ & Hfinite & _).
    exact (proj2 (Hfinite [1; 2; 1] [2; 3] true Ha Hb)).
  - destruct (union_is_distinct_concat id (countFrom 0) (fromArray [2; 3])
                None 0) as (_ & _ & _ & _ & Hrunning).
    exact (Hrunning [0; 1; 2] Hc).
Defined.

(** C5.  For finite [A] and [B], [except(A, B)] and [intersect(A, B)]
    are finite, no identity occurs in both, and [A] is an interleaving
    of the two that keeps the order of each, hence the same multiset. *)
Theorem except_intersect_partition {T K : Type} `{Countable K} (selfSelector : T → K)
    (A B : Iterable T) (stringifier : option (T → K)) (a b : list T) :
  Yields A a → Yields B b →
  let identity := orDefault stringifier selfSelector in
  ∃ excepted intersected,
    Yields (exceptGenerator selfSelector A B stringifier) excepted ∧
    Yields (intersectGenerator selfSelector A B stringifier) intersected ∧
    (∀ x y, x ∈ excepted → y ∈ intersected → identity x ≠ identity y) ∧
    (∀ x y, x ∈ excepted → y ∈ b → identity x ≠ identity y) ∧
    (∀ x, x ∈ intersected → ∃ y, y ∈ b ∧ identity y = identity x) ∧
    Interleaving excepted intersected a ∧
    excepted ++ intersected ≡ₚ a.
Proof.
  intros Ha Hb identity.
  set (member := fun item => bool_decide (identity item ∈ addAll ∅ (identity <$> b))).
  exists (List.filter (fun item => negb (member item)) a), (List.filter member a).
  assert (∀ x, x ∈ List.filter (fun item => negb (member item)) a →
               identity x ∉ identity <$> b) as Hex.
  { intros x. rewrite list_elem_of_In, List.filter_In. intros [_ Hx].
    apply negb_true_iff, bool_decide_eq_false in Hx.
    rewrite elem_of_addAll in Hx. tauto. }
  assert (∀ x, x ∈ List.filter member a → identity x ∈ identity <$> b) as Hin.
  { intros x. rewrite list_elem_of_In, List.filter_In. intros [_ Hx].
    apply bool_decide_eq_true in Hx. rewrite elem_of_addAll in Hx.
    destruct Hx as [Hx|Hx]; [by apply not_elem_of_empty in Hx|done]. }
  split; [by apply (except_Produces selfSelector A B stringifier a b true)|].
  split; [by apply (intersect_Produces selfSelector A B stringifier a b true)|].
  split; [|split; [|split; [|split]]].
  - intros x y Hx Hy Heq. apply (Hex x Hx). rewrite Heq. by apply Hin.
  - intros x y Hx Hy Heq. apply (Hex x Hx). rewrite Heq.
    apply list_elem_of_fmap. by exists y.
  - intros x Hx. apply Hin, list_elem_of_fmap in Hx as (y & Hy & Hyb). by exists y.
  - apply filter_Interleaving.
  - apply Interleaving_Permutation, filter_Interleaving.
Qed.

Lemma except_intersect_partition_witness :
  Yields (fromArray [1; 2; 3]) [1; 2; 3] ∧
  Yields (fromArray [2; 3]) [2; 3] ∧
  ∃ excepted intersected,
    Yields (exceptGenerator id (fromArray [1; 2; 3]) (fromArray [2; 3]) None) excepted ∧
    Yields (intersectGenerator id (fromArray [1; 2; 3]) (fromArray [2; 3]) None) intersected ∧
    excepted ++ intersected ≡ₚ [1; 2; 3].
Proof.
  assert (Yields (fromArray [1; 2; 3]) [1; 2; 3]) as Ha by (exists 4%nat; reflexivity).
  assert (Yields (fromArray [2; 3]) [2; 3]) as Hb by (exists 3%nat; reflexivity).
  split; [exact Ha|]. split; [exact Hb|].
  destruct (except_intersect_partition id (fromArray [1; 2; 3]) (fromArray [2; 3])
              None [1; 2; 3] [2; 3] Ha Hb)
    as (excepted & intersected & He & Hi & _ & _ & _ & _ & Hp).
  by exists excepted, intersected.
Defined.

(** The example of the specification: [except([1,2,3], [2,3])] is [1]
    and [intersect([1,2,3], [2,3])] is [2,3]. *)
Lemma except_intersect_example :
  drive 8 (exceptGenerator id (fromArray [1; 2; 3]) (fromArray [2; 3]) None) = ([1], true) ∧
  drive 8 (intersectGenerator id (fromArray [1; 2; 3]) (fromArray [2; 3]) None) = ([2; 3], true).
Proof. split; vm_compute; reflexivity. Qed.

(** C6.  After any number of steps, what [distinct] has yielded is what
    its source has yielded with every element dropped whose identity
    occurred before: no two outputs share an identity, the output is no
    longer than the input, each output sits in the input where its
    identity occurs first, and every identity of the input is kept. *)
Theorem distinct_first_occurrence_only {T K : Type} `{Countable K} (selfSelector : T → K)
    (source : Iterable T) (stringifier : option (T → K)) (fuel : nat) :
  let identity := orDefault stringifier selfSelector in
  let input := (drive fuel source).1 in
  let output := (drive fuel (distinctGenerator selfSelector source stringifier)).1 in
  output = firstOccurrences identity ∅ input ∧
  NoDup (identity <$> output) ∧
  (length output ≤ length input)%nat ∧
  (∀ x, x ∈ output →
     ∃ j, input !! j = Some x ∧
          ∀ j' y, (j' < j)%nat → input !! j' = Some y → identity y ≠ identity x) ∧
  (∀ y, y ∈ input → ∃ x, x ∈ output ∧ identity x = identity y) ∧
  (drive fuel (distinctGenerator selfSelector source stringifier)).2 =
    (drive fuel source).2.
Proof.
  intros identity input output. subst output. rewrite drive_distinct. cbn [fst snd].
  fold identity input.
  split; [done|]. split; [apply firstOccurrences_NoDup|].
  split; [apply sublist_length, firstOccurrences_sublist|].
  split; [apply firstOccurrences_first|]. split; [|done].
  intros y Hy.
  destruct (firstOccurrences_complete identity input ∅ (identity y)) as [He|Hk].
  - apply list_elem_of_fmap. by exists y.
  - by apply not_elem_of_empty in He.
  - apply list_elem_of_fmap in Hk as (x & Hx & Hxo). by exists x.
Qed.

Lemma distinct_first_occurrence_only_witness :
  (drive 5 (distinctGenerator id (fromArray [3; 1; 3; 2]) None)).1 = [3; 1; 2] ∧
  NoDup (id <$> (drive 5 (distinctGenerator id (fromArray [3; 1; 3; 2]) None)).1).
Proof.
  split; [vm_compute; reflexivity|].
  exact (proj1 (proj2 (distinct_first_occurrence_only id (fromArray [3; 1; 3; 2]) None 5))).
Defined.

(** C7.  After any number of steps, what [map] has yielded is the
    selector applied elementwise to what its source has yielded, and
    what [filter], [skip], [take], [distinct], [except] and [intersect]
    have yielded is a sublist (same relative order) of what their first
    argument yields.  [append], [prepend] and [concat] keep what their
    source yields in order as well, around the added elements.
    [reverse] does reorder: on [[1; 2]] it yields [[2; 1]], which is no
    sublist of the input. *)
Theorem operators_preserve_order {T R K : Type} `{Countable K} (selfSelector : T → K)
    (source second : Iterable T) (selector : T → Z → R) (condition : T → Z → bool)
    (count : Z) (stringifier : option (T → K)) (element : T) (fuel : nat) :
  let input := (drive fuel source).1 in
  (drive fuel (mapGenerator source selector)).1 = mapIndexed selector 0 input ∧
  (drive fuel (filterGenerator source condition)).1 `sublist_of` input ∧
  (drive fuel (skipGenerator source count)).1 `sublist_of` input ∧
  (drive fuel (takeGenerator source count)).1 `sublist_of` input ∧
  (drive fuel (distinctGenerator selfSelector source stringifier)).1 `sublist_of` input ∧
  (∃ fuel', (drive fuel (exceptGenerator selfSelector source second stringifier)).1
              `sublist_of` (drive fuel' source).1) ∧
  (∃ fuel', (drive fuel (intersectGenerator selfSelector source second stringifier)).1
              `sublist_of` (drive fuel' source).1) ∧
  (drive (S fuel) (appendGenerator source element)).1 = element :: input ∧
  input `sublist_of` (drive (S fuel) (prependGenerator source element)).1 ∧
  (∃ fuel', input `sublist_of` (drive fuel' (concatGenerator source second)).1) ∧
  (drive 6 (reverseGenerator (fromArray [1; 2])) = ([2; 1], true) ∧
   ¬ [2; 1] `sublist_of` [1; 2]).
Proof.
  intros input. subst input.
  rewrite drive_map, drive_filter, drive_skip, drive_take, drive_distinct, drive_append.
  cbn [fst].
  split; [done|]. split; [apply filter_bool_sublist|].
  split; [apply sublist_drop|]. split; [apply sublist_take|].
  split; [apply firstOccurrences_sublist|].
  split; [apply pull_except_sublist|]. split; [apply pull_intersect_sublist|].
  split; [done|]. split; [apply drive_prepend_sublist|].
  split; [apply drive_concat_sublist|].
  split; [reflexivity|].
  intros Hs. inversion Hs as [| |? ? ? Hs1]. inversion Hs1 as [|? ? ? Hs2|? ? ? Hs2];
    inversion Hs2.
Qed.

(** C8.  Reversing a finite sequence twice gives it back. *)
Theorem reverse_reverse {T : Type} (source : Iterable T) (l : list T) :
  Yields source l → Yields (reverseGenerator (reverseGenerator source)) l.
Proof.
  intros Hs. rewrite <- (reverse_involutive l). by do 2 apply reverse_Yields.
Qed.

Lemma reverse_reverse_witness :
  Yields (fromArray [0; 1; 2; 3; 4]) [0; 1; 2; 3; 4] ∧
  Yields (reverseGenerator (reverseGenerator (fromArray [0; 1; 2; 3; 4]))) [0; 1; 2; 3; 4].
Proof.
  assert (Yields (fromArray [0; 1; 2; 3; 4]) [0; 1; 2; 3; 4]) as Hs
    by (exists 6%nat; reflexivity).
  split; [exact Hs|]. exact (reverse_reverse _ _ Hs).
Defined.

(** The example of the specification: [reverse([0,1,2,3,4])] is [4,3,2,1,0]. *)
Lemma reverse_example :
  drive 12 (reverseGenerator (fromArray [0; 1; 2; 3; 4])) = ([4; 3; 2; 1; 0], true).
Proof. reflexivity. Qed.

(** C9.  [groupBy([1,2,3,4], x => x % 2)]: the buckets are created in
    the order "1", "0" (1 is met first), each holds its elements in
    source order, and the object is enumerated with the array index "0"
    before "1": the groups come out as [{key: "0", value: [2, 4]}] and
    then [{key: "1", value: [1, 3]}]. *)
Theorem groupBy_parity_example :
  let source := fromArray [1; 2; 3; 4] in
  let keySelector := fun x => KNumber (Z.rem x 2) in
  let record : JsObject (list Z) := [("1", [1; 3]); ("0", [2; 4])]%string in
  groupByGenerator id 5 source keySelector None = Some (objectGenerator record) ∧
  ownKeys record = ["0"; "1"]%string ∧
  drive 3 (objectGenerator record) =
    ([MkKeyValue "0" [2; 4]; MkKeyValue "1" [1; 3]]%string, true).
Proof. repeat split; vm_compute; reflexivity. Qed.

(** Keys that are not array indices come out in the order in which they
    were first met. *)
Lemma groupBy_names_example :
  let source := fromArray [1; 2; 3; 4] in
  let keySelector := fun x => KString (if Z.odd x then "odd" else "even") in
  let record : JsObject (list Z) := [("odd", [1; 3]); ("even", [2; 4])]%string in
  groupByGenerator id 5 source keySelector None = Some (objectGenerator record) ∧
  drive 3 (objectGenerator record) =
    ([MkKeyValue "odd" [1; 3]; MkKeyValue "even" [2; 4]]%string, true).
Proof. repeat split; vm_compute; reflexivity. Qed.

(** C10.  With [count <= 0], [skip(source, count)] behaves step for step
    as [source]: it produces exactly what [source] produces, and returns
    exactly when [source] does. *)
Theorem skip_nonpositive_count_keeps_all {T : Type} (source : Iterable T) (count : Z) :
  count ≤ 0 →
  (∀ fuel, drive fuel (skipGenerator source count) = drive fuel source) ∧
  (∀ l done, Produces (skipGenerator source count) l done ↔ Produces source l done).
Proof.
  intros Hc.
  assert (∀ fuel, drive fuel (skipGenerator source count) = drive fuel source) as Hd.
  { intros fuel. by apply drive_skip_nonpositive. }
  split; [exact Hd|]. intros l done.
  split; intros [fuel Hf]; exists fuel; [by rewrite <- Hd|by rewrite Hd].
Qed.

Lemma skip_nonpositive_count_keeps_all_witness :
  -2 ≤ 0 ∧ drive 4 (skipGenerator (fromArray [7; 8; 9]) (-2)) = ([7; 8; 9], true).
Proof.
  split; [lia|].
  rewrite (proj1 (skip_nonpositive_count_keeps_all (fromArray [7; 8; 9]) (-2) ltac:(lia)) 4%nat).
  reflexivity.
Defined.

(** * Further properties of the generators *)

(** ** Producers *)

Lemma nearestDouble_safe (z : Z) :
  - 2 ^ 53 ≤ z ≤ 2 ^ 53 → nearestDouble z = z.
Proof.
  intros Hz. unfold nearestDouble.
  destruct (Z.leb_spec (Z.abs z) (2 ^ 53)) as [_|Habs]; [done|].
  change (2 ^ 53) with 9007199254740992 in *. lia.
Qed.

Lemma pull_range (start count : Z) fuel : ∀ i,
  0 ≤ i → - 2 ^ 53 ≤ start → start + count ≤ 2 ^ 53 →
  (Z.to_nat (count - i) < fuel)%nat →
  pull (next (rangeGenerator start count)) fuel i =
    ((fun j => start + j) <$> seqZ i (count - i), true).
Proof.
  induction fuel as [|fuel IH]; intros i Hi Hlo Hhi Hf; [lia|].
  rewrite pull_S. cbn [next rangeGenerator].
  destruct (Z.ltb_spec i count) as [Hic|Hic].
  - rewrite IH by lia. cbn [fst snd]. unfold numberAdd.
    rewrite nearestDouble_safe by (change (2 ^ 53) with 9007199254740992 in *; lia).
    rewrite (seqZ_cons i) by lia.
    replace (Z.succ i) with (i + 1) by lia.
    by replace (Z.pred (count - i)) with (count - (i + 1)) by lia.
  - by rewrite seqZ_nil by lia.
Qed.

(** As long as every number involved is a safe integer (start from
    -2^53, [start + count] and [count] up to 2^53),
    [fromRange(start, count)] is the finite sequence [start],
    [start + 1], ... of [count] consecutive integers (none when
    [count <= 0]). *)
Theorem range_yields_consecutive (start count : Z) :
  - 2 ^ 53 ≤ start → start + count ≤ 2 ^ 53 → count ≤ 2 ^ 53 →
  Yields (rangeGenerator start count) ((fun j => start + j) <$> seqZ 0 count) ∧
  length ((fun j => start + j) <$> seqZ 0 count) = Z.to_nat count.
Proof.
  intros Hlo Hhi Hcount. split.
  - exists (S (Z.to_nat count)). unfold drive. cbn [iterator rangeGenerator].
    rewrite pull_range by (done || lia). by rewrite Z.sub_0_r.
  - by rewrite length_fmap, length_seqZ.
Qed.

Lemma range_yields_consecutive_witness :
  - 2 ^ 53 ≤ -2 ∧ -2 + 4 ≤ 2 ^ 53 ∧ 4 ≤ 2 ^ 53 ∧
  Yields (rangeGenerator (-2) 4) [-2; -1; 0; 1].
Proof.
  assert (- 2 ^ 53 ≤ -2) as Hlo by (vm_compute; discriminate).
  assert (-2 + 4 ≤ 2 ^ 53) as Hhi by (vm_compute; discriminate).
  assert (4 ≤ 2 ^ 53) as Hcount by (vm_compute; discriminate).
  split; [exact Hlo|]. split; [exact Hhi|]. split; [exact Hcount|].
  exact (proj1 (range_yields_consecutive (-2) 4 Hlo Hhi Hcount)).
Defined.

(** Above 2^53 the sums are rounded: [fromRange(2^53, 3)] yields 2^53
    twice and then 2^53 + 2. *)
Lemma range_rounds_above_2_53 :
  drive 4 (rangeGenerator (2 ^ 53) 3) = ([2 ^ 53; 2 ^ 53; 2 ^ 53 + 2], true).
Proof. vm_compute. reflexivity. Qed.



(** ** Composing the elementwise and structural operators *)

Lemma mapIndexed_compose {T R Q : Type} (f : T → Z → R) (g : R → Z → Q) (l : list T) :
  ∀ i, mapIndexed g i (mapIndexed f i l) =
         mapIndexed (fun item j => g (f item j) j) i l.
Proof. induction l as [|x l IH]; intros i; cbn; [done|]. by rewrite IH. Qed.

(** Two maps in a row are one map: both selectors receive the same
    index, the position of the element in the source. *)
Theorem map_map_fuses {T R Q : Type} (source : Iterable T) (f : T → Z → R)
    (g : R → Z → Q) (fuel : nat) :
  drive fuel (mapGenerator (mapGenerator source f) g) =
    drive fuel (mapGenerator source (fun item i => g (f item i) i)).
Proof. rewrite !drive_map. cbn [fst snd]. by rewrite mapIndexed_compose. Qed.

(** For a finite source, [take] yields its first [count] elements and
    [skip] the others: together they give the source back, whatever
    [count] is. *)
Theorem take_skip_split {T : Type} (source : Iterable T) (count : Z) (l : list T) :
  Yields source l →
  Yields (takeGenerator source count) (take (Z.to_nat count) l) ∧
  Yields (skipGenerator source count) (drop (Z.to_nat count) l) ∧
  take (Z.to_nat count) l ++ drop (Z.to_nat count) l = l ∧
  (length (take (Z.to_nat count) l) ≤ Z.to_nat count)%nat.
Proof.
  intros [fuel Hf]. split; [|split; [|split]].
  - exists fuel. by rewrite drive_take, Hf.
  - exists fuel. by rewrite drive_skip, Hf.
  - apply take_drop.
  - rewrite length_take. lia.
Qed.

Lemma take_skip_split_witness :
  Yields (fromArray [0; 1; 2; 3; 4]) [0; 1; 2; 3; 4] ∧
  Yields (takeGenerator (fromArray [0; 1; 2; 3; 4]) 2) [0; 1] ∧
  Yields (skipGenerator (fromArray [0; 1; 2; 3; 4]) 2) [2; 3; 4].
Proof.
  assert (Yields (fromArray [0; 1; 2; 3; 4]) [0; 1; 2; 3; 4]) as Hs
    by (exists 6%nat; reflexivity).
  destruct (take_skip_split (fromArray [0; 1; 2; 3; 4]) 2 _ Hs) as (Ht & Hk & _).
  done.
Defined.

(** [take] looks one element ahead: while a source that has not
    returned has yielded at most [count] elements, [take] has passed
    them all on and has not returned either, even with [count] elements
    out; it returns when the source answers one more pull. *)
Theorem take_returns_after_one_more_pull {T : Type} (source : Iterable T) (count : Z)
    (fuel : nat) (l : list T) :
  drive fuel source = (l, false) →
  drive fuel (takeGenerator source count) =
    (take (Z.to_nat count) l, bool_decide (Z.to_nat count < length l)%nat) ∧
  ((length l ≤ Z.to_nat count)%nat →
   drive fuel (takeGenerator source count) = (l, false)).
Proof.
  intros Hf. rewrite drive_take, Hf. cbn [fst snd orb]. split; [done|].
  intros Hl. rewrite firstn_all2 by done. by rewrite bool_decide_eq_false_2 by lia.
Qed.

Lemma take_returns_after_one_more_pull_witness :
  drive 2 (countFrom 0) = ([0; 1], false) ∧
  drive 2 (takeGenerator (countFrom 0) 2) = ([0; 1], false) ∧
  drive 3 (takeGenerator (countFrom 0) 2) = ([0; 1], true).
Proof.
  split; [reflexivity|]. split.
  - apply (take_returns_after_one_more_pull (countFrom 0) 2 2 [0; 1]); [reflexivity|].
    cbn. lia.
  - exact (proj1 (take_returns_after_one_more_pull (countFrom 0) 2 3 [0; 1; 2]
                    eq_refl)).
Defined.

(** Skipping twice skips the sum, and taking twice takes the smaller
    count (counts that are not negative). *)
Theorem skip_skip_take_take {T : Type} (source : Iterable T) (n m : Z) (fuel : nat) :
  0 ≤ n → 0 ≤ m →
  (drive fuel (skipGenerator (skipGenerator source n) m)).1 =
    (drive fuel (skipGenerator source (n + m))).1 ∧
  (drive fuel (takeGenerator (takeGenerator source n) m)).1 =
    (drive fuel (takeGenerator source (Z.min n m))).1.
Proof.
  intros Hn Hm. rewrite !drive_skip, !drive_take. cbn [fst snd]. split.
  - rewrite drop_drop. f_equal. lia.
  - rewrite take_take. f_equal. lia.
Qed.

Lemma skip_skip_take_take_witness :
  (drive 6 (skipGenerator (skipGenerator (rangeGenerator 0 5) 1) 2)).1 = [3; 4] ∧
  (drive 6 (takeGenerator (takeGenerator (rangeGenerator 0 5) 3) 2)).1 = [0; 1].
Proof.
  destruct (skip_skip_take_take (rangeGenerator 0 5) 1 2 6 ltac:(lia) ltac:(lia))
    as [Hs _].
  destruct (skip_skip_take_take (rangeGenerator 0 5) 3 2 6 ltac:(lia) ltac:(lia))
    as [_ Ht].
  split; [rewrite Hs|rewrite Ht]; reflexivity.
Defined.



(** Concatenation is associative on what is yielded. *)
Theorem concat_assoc {T : Type} (A B C : Iterable T) (a b c : list T) (done : bool) :
  Yields A a → Yields B b → Produces C c done →
  Produces (concatGenerator (concatGenerator A B) C) (a ++ b ++ c) done ∧
  Produces (concatGenerator A (concatGenerator B C)) (a ++ b ++ c) done.
Proof.
  intros Ha Hb Hc. split.
  - rewrite app_assoc. apply concat_Produces; [|done]. by apply concat_Produces.
  - apply concat_Produces; [done|]. by apply concat_Produces.
Qed.

Lemma concat_assoc_witness :
  Yields (concatGenerator (concatGenerator (fromArray [1]) (fromArray [2])) (fromArray [3]))
    [1; 2; 3] ∧
  Yields (concatGenerator (fromArray [1]) (concatGenerator (fromArray [2]) (fromArray [3])))
    [1; 2; 3].
Proof.
  apply (concat_assoc (fromArray [1]) (fromArray [2]) (fromArray [3]) [1] [2] [3] true);
    exists 2%nat; reflexivity.
Defined.

(** Concatenating with a one-element array does what [append] and
    [prepend] do: [concat([e], source)] produces what
    [append(source, e)] produces, and [concat(source, [e])] what
    [prepend(source, e)] produces. *)
Theorem append_prepend_as_concat {T : Type} (source : Iterable T) (element : T)
    (l : list T) (done : bool) :
  Produces source l done →
  (Produces (appendGenerator source element) (element :: l) done ∧
   Produces (concatGenerator (fromArray [element]) source) (element :: l) done) ∧
  (Produces (prependGenerator source element) (if done then l ++ [element] else l) done ∧
   Produces (concatGenerator source (fromArray [element]))
     (if done then l ++ [element] else l) done).
Proof.
  intros Hs. split; split.
  - by apply append_Produces.
  - apply (concat_Produces (fromArray [element]) source [element] l done); [|done].
    exists 2%nat. reflexivity.
  - by apply prepend_Produces.
  - destruct done.
    + apply concat_Produces; [done|]. exists 2%nat. reflexivity.
    + by apply concat_Produces_first.
Qed.

Lemma append_prepend_as_concat_witness :
  Yields (concatGenerator (fromArray [0]) (fromArray [1; 2])) [0; 1; 2] ∧
  Yields (concatGenerator (fromArray [1; 2]) (fromArray [3])) [1; 2; 3].
Proof.
  assert (Yields (fromArray [1; 2]) [1; 2]) as Hs by (exists 3%nat; reflexivity).
  split.
  - exact (proj2 (proj1 (append_prepend_as_concat (fromArray [1; 2]) 0 _ _ Hs))).
  - exact (proj2 (proj2 (append_prepend_as_concat (fromArray [1; 2]) 3 _ _ Hs))).
Defined.

(** [reverse] of a finite source is finite and yields its elements
    from the last to the first. *)
Theorem reverse_yields_reversed {T : Type} (source : Iterable T) (l : list T) :
  Yields source l →
  Yields (reverseGenerator source) (reverse l) ∧
  length (reverse l) = length l.
Proof. intros Hs. split; [by apply reverse_Yields|apply length_reverse]. Qed.

Lemma reverse_yields_reversed_witness :
  Yields (reverseGenerator (rangeGenerator 0 5)) [4; 3; 2; 1; 0].
Proof.
  apply (proj1 (reverse_yields_reversed (rangeGenerator 0 5) [0; 1; 2; 3; 4]
                  ltac:(exists 6%nat; reflexivity))).
Defined.

(** [reverse] yields nothing before its source has returned: as long as
    the source is running, [reverse] is only buffering. *)
Theorem reverse_waits_for_source {T : Type} (source : Iterable T) (fuel : nat) :
  (drive fuel source).2 = false →
  drive fuel (reverseGenerator source) = ([], false).
Proof.
  unfold drive. cbn [State next iterator reverseGenerator].
  destruct (pull (next source) fuel (iterator source)) as [l d] eqn:E.
  cbn [snd]. intros ->. by apply (pull_buffering_running _ _ _ _ l).
Qed.

Lemma reverse_waits_for_source_witness :
  (drive 50 (countFrom 0)).2 = false ∧
  drive 50 (reverseGenerator (countFrom 0)) = ([], false).
Proof.
  split; [reflexivity|].
  apply (reverse_waits_for_source (countFrom 0) 50). reflexivity.
Defined.

(** ** The set operators *)

Section SetProperties.
Context {T K : Type} `{Countable K} (selfSelector : T → K).
Implicit Types (source first second A B : Iterable T) (stringifier : option (T → K)).

Lemma firstOccurrences_idempotent (identity : T → K) (l : list T) : ∀ seen,
  firstOccurrences identity seen (firstOccurrences identity seen l) =
    firstOccurrences identity seen l.
Proof.
  induction l as [|x l IH]; intros seen; cbn [firstOccurrences]; [done|].
  case_bool_decide as Hx; [apply IH|].
  cbn [firstOccurrences]. rewrite bool_decide_eq_false_2 by done. by rewrite IH.
Qed.

Lemma firstOccurrences_app (identity : T → K) (l1 l2 : list T) : ∀ seen,
  firstOccurrences identity seen (l1 ++ l2) =
    firstOccurrences identity seen l1
    ++ firstOccurrences identity (addAll seen (identity <$> firstOccurrences identity seen l1)) l2.
Proof.
  induction l1 as [|x l1 IH]; intros seen; cbn [app firstOccurrences]; [done|].
  case_bool_decide as Hx; [apply IH|].
  cbn [app fmap list_fmap]. by rewrite IH.
Qed.

(** [distinct] applied twice with the same stringifier is [distinct]
    applied once. *)
Theorem distinct_idempotent source stringifier (fuel : nat) :
  drive fuel (distinctGenerator selfSelector
                (distinctGenerator selfSelector source stringifier) stringifier) =
    drive fuel (distinctGenerator selfSelector source stringifier).
Proof.
  rewrite !drive_distinct. cbn [fst snd]. by rewrite firstOccurrences_idempotent.
Qed.

Lemma firstOccurrences_kept (identity : T → K) (l : list T) : ∀ seen j x,
  l !! j = Some x → identity x ∉ seen →
  (∀ j' y, (j' < j)%nat → l !! j' = Some y → identity y ≠ identity x) →
  x ∈ firstOccurrences identity seen l.
Proof.
  induction l as [|y l IH]; intros seen j x Hj Hx Hbefore; [done|].
  cbn [firstOccurrences]. destruct j as [|j]; cbn in Hj.
  - injection Hj as ->. rewrite bool_decide_eq_false_2 by done. by left.
  - assert (identity y ≠ identity x) as Hy by (apply (Hbefore O); [lia|done]).
    assert (∀ j' z, (j' < j)%nat → l !! j' = Some z → identity z ≠ identity x) as Hb.
    { intros j' z Hlt Hz. apply (Hbefore (S j')); [lia|done]. }
    case_bool_decide; [by apply (IH _ j)|].
    right. apply (IH _ j); [done| |done].
    rewrite elem_of_union, elem_of_singleton. intros [Heq|Hin]; [by apply Hy|done].
Qed.

(** [union(A, B)] starts with [distinct(A)] and goes on with exactly the
    elements of [B], in order, whose identity is new: not met in [A]
    and not met earlier in [B]; every identity of [B] is in the output. *)
Theorem union_distinct_first_then_new A B stringifier (a b : list T) :
  Yields A a → Yields B b →
  let identity := orDefault stringifier selfSelector in
  let rest := firstOccurrences identity (list_to_set (identity <$> a)) b in
  Yields (distinctGenerator selfSelector A stringifier) (firstOccurrences identity ∅ a) ∧
  Yields (unionGenerator selfSelector A B stringifier)
    (firstOccurrences identity ∅ a ++ rest) ∧
  rest `sublist_of` b ∧
  NoDup (identity <$> rest) ∧
  (∀ x, x ∈ rest → identity x ∉ identity <$> a) ∧
  (∀ x, x ∈ rest →
     ∃ j, b !! j = Some x ∧
          ∀ j' y, (j' < j)%nat → b !! j' = Some y → identity y ≠ identity x) ∧
  (∀ j x, b !! j = Some x → identity x ∉ identity <$> a →
     (∀ j' y, (j' < j)%nat → b !! j' = Some y → identity y ≠ identity x) →
     x ∈ rest) ∧
  (∀ y, y ∈ b → identity y ∈ identity <$> a ∨ identity y ∈ identity <$> rest).
Proof.
  intros Ha Hb identity rest.
  set (seen := list_to_set (identity <$> a) : gset K) in *.
  assert (addAll ∅ (identity <$> firstOccurrences identity ∅ a) = seen) as Hseen.
  { apply set_eq. intros k. unfold seen.
    rewrite elem_of_addAll, elem_of_list_to_set. split.
    - intros [Hk|Hk]; [by apply not_elem_of_empty in Hk|].
      apply list_elem_of_fmap in Hk as (x & -> & Hx). apply list_elem_of_fmap.
      exists x. split; [done|].
      by apply (sublist_subseteq _ _ (firstOccurrences_sublist identity a ∅)).
    - intros Hk. right.
      destruct (firstOccurrences_complete identity a ∅ k Hk) as [He|Hr]; [|done].
      by apply not_elem_of_empty in He. }
  split; [by apply distinct_Produces|]. split.
  { unfold rest. rewrite <- Hseen, <- firstOccurrences_app.
    apply (distinct_Produces selfSelector (concatGenerator A B) (Some identity)).
    by apply concat_Produces. }
  split; [apply firstOccurrences_sublist|].
  split; [apply firstOccurrences_NoDup|]. split.
  { intros x Hx. apply firstOccurrences_fresh in Hx.
    unfold seen in Hx. by rewrite elem_of_list_to_set in Hx. }
  split; [apply firstOccurrences_first|]. split.
  { intros j x Hj Hx Hbefore. apply (firstOccurrences_kept identity b seen j); [done| |done].
    unfold seen. by rewrite elem_of_list_to_set. }
  intros y Hy.
  destruct (firstOccurrences_complete identity b seen (identity y)) as [Hs|Hr].
  - apply list_elem_of_fmap. by exists y.
  - left. unfold seen in Hs. by rewrite elem_of_list_to_set in Hs.
  - by right.
Qed.

Lemma filter_bool_all {A : Type} (p : A → bool) (l : list A) :
  (∀ x, x ∈ l → p x = true) → List.filter p l = l.
Proof.
  induction l as [|x l IH]; intros Hp; cbn; [done|].
  rewrite (Hp x) by (by left). rewrite IH; [done|].
  intros y Hy. apply Hp. by right.
Qed.

Lemma filter_bool_none {A : Type} (p : A → bool) (l : list A) :
  (∀ x, x ∈ l → p x = false) → List.filter p l = [].
Proof.
  induction l as [|x l IH]; intros Hp; cbn; [done|].
  rewrite (Hp x) by (by left). apply IH.
  intros y Hy. apply Hp. by right.
Qed.

(** The edge cases of [except] and [intersect] with an empty argument:
    against a second sequence that is empty, [except] yields all of a
    finite first sequence and [intersect] nothing; on a first sequence
    that is empty, both yield nothing, whatever the finite second
    sequence is. *)
Theorem except_intersect_edges A B stringifier (a b : list T) :
  (Yields A a → Yields B [] →
   Yields (exceptGenerator selfSelector A B stringifier) a ∧
   Yields (intersectGenerator selfSelector A B stringifier) []) ∧
  (Yields A [] → Yields B b →
   Yields (exceptGenerator selfSelector A B stringifier) [] ∧
   Yields (intersectGenerator selfSelector A B stringifier) []).
Proof.
  set (identity := orDefault stringifier selfSelector). split.
  - intros Ha Hb.
    pose proof (except_Produces selfSelector A B stringifier a [] true Hb Ha) as H1.
    pose proof (intersect_Produces selfSelector A B stringifier a [] true Hb Ha) as H2.
    cbv zeta in H1, H2. fold identity in H1, H2.
    assert (∀ x, identity x ∉ addAll ∅ (identity <$> [])) as Hout.
    { intros x. rewrite elem_of_addAll.
      intros [Hx|Hx]; [by apply not_elem_of_empty in Hx|by apply elem_of_nil in Hx]. }
    rewrite filter_bool_all in H1
      by (intros x Hx; apply negb_true_iff, bool_decide_eq_false; by apply Hout).
    rewrite filter_bool_none in H2
      by (intros x Hx; apply bool_decide_eq_false; by apply Hout).
    done.
  - intros Ha Hb.
    pose proof (except_Produces selfSelector A B stringifier [] b true Hb Ha) as H1.
    pose proof (intersect_Produces selfSelector A B stringifier [] b true Hb Ha) as H2.
    done.
Qed.

Lemma pull_except_collecting first second (identity : T → K) fuel : ∀ set i s,
  (pull (next second) fuel s).2 = false →
  pull (exceptNext first second identity) fuel (Collecting set (i, s)) = ([], false).
Proof.
  induction fuel as [|fuel IH]; intros set i s; [done|].
  rewrite !pull_S.
  cbn [exceptNext stringified mapGenerator mapNext next iterator].
  destruct (next second s) as [|s'|v s']; cbn [snd]; [done|apply IH..].
Qed.

Lemma pull_intersect_collecting first second (identity : T → K) fuel : ∀ set i s,
  (pull (next second) fuel s).2 = false →
  pull (intersectNext first second identity) fuel (Collecting set (i, s)) = ([], false).
Proof.
  induction fuel as [|fuel IH]; intros set i s; [done|].
  rewrite !pull_S.
  cbn [intersectNext stringified mapGenerator mapNext next iterator].
  destruct (next second s) as [|s'|v s']; cbn [snd]; [done|apply IH..].
Qed.

(** [except] and [intersect] yield nothing before [second] has
    returned: as long as [second] is running they are only filling
    their set, whatever [first] is. *)
Theorem except_intersect_wait_for_second first second stringifier (fuel : nat) :
  (drive fuel second).2 = false →
  drive fuel (exceptGenerator selfSelector first second stringifier) = ([], false) ∧
  drive fuel (intersectGenerator selfSelector first second stringifier) = ([], false).
Proof.
  intros Hs. split.
  - by apply pull_except_collecting.
  - by apply pull_intersect_collecting.
Qed.
End SetProperties.

Lemma union_distinct_first_then_new_witness :
  ∃ rest,
    Yields (unionGenerator id (fromArray [1; 2; 1]) (fromArray [2; 3; 3]) None)
      (firstOccurrences id ∅ [1; 2; 1] ++ rest) ∧
    rest `sublist_of` [2; 3; 3].
Proof.
  destruct (union_distinct_first_then_new id (fromArray [1; 2; 1]) (fromArray [2; 3; 3])
              None [1; 2; 1] [2; 3; 3]
              ltac:(exists 4%nat; reflexivity) ltac:(exists 4%nat; reflexivity))
    as (_ & Hu & Hsub & _).
  eexists. split; [exact Hu|exact Hsub].
Defined.

(** With the last digit as identity, [union([1], [1, 11])] is [[1]]:
    11 is dropped, its identity being met before. *)
Lemma union_last_digit_example :
  drive 6 (unionGenerator id (fromArray [1]) (fromArray [1; 11])
             (Some (fun x => Z.rem x 10))) = ([1], true).
Proof. vm_compute. reflexivity. Qed.

Lemma except_intersect_edges_witness :
  Yields (exceptGenerator id (fromArray [1; 2; 1]) (fromArray []) None) [1; 2; 1] ∧
  Yields (intersectGenerator id (fromArray [1; 2; 1]) (fromArray []) None) [] ∧
  Yields (exceptGenerator id (fromArray []) (fromArray [5; 6]) None) [] ∧
  Yields (intersectGenerator id (fromArray []) (fromArray [5; 6]) None) [].
Proof.
  destruct (proj1 (except_intersect_edges id (fromArray [1; 2; 1]) (fromArray []) None
                     [1; 2; 1] [])
              ltac:(exists 4%nat; reflexivity) ltac:(exists 1%nat; reflexivity))
    as [He Hi].
  destruct (proj2 (except_intersect_edges id (fromArray []) (fromArray [5; 6]) None
                     [] [5; 6])
              ltac:(exists 1%nat; reflexivity) ltac:(exists 3%nat; reflexivity))
    as [He' Hi'].
  done.
Defined.

Lemma except_intersect_wait_for_second_witness :
  (drive 20 (countFrom 0)).2 = false ∧
  drive 20 (exceptGenerator id (fromArray [1; 2]) (countFrom 0) None) = ([], false).
Proof.
  split; [reflexivity|].
  apply (except_intersect_wait_for_second id (fromArray [1; 2]) (countFrom 0) None 20).
  reflexivity.
Defined.

(** ** Objects and their enumeration *)

Lemma getProp_None {V : Type} (name : string) (obj : JsObject V) :
  getProp name obj = None ↔ name ∉ obj.*1.
Proof.
  induction obj as [|[name' v] obj IH]; cbn.
  - split; [intros _; apply not_elem_of_nil|done].
  - rewrite not_elem_of_cons. destruct (String.eqb_spec name name') as [->|Hne].
    + split; [done|]. by intros [? _].
    + rewrite IH. tauto.
Qed.

Lemma getProp_is_Some {V : Type} (name : string) (obj : JsObject V) :
  name ∈ obj.*1 → is_Some (getProp name obj).
Proof.
  intros Hin. destruct (getProp name obj) eqn:E; [done|].
  by apply getProp_None in E.
Qed.

Lemma arrayIndex_pretty (name : string) (n : N) :
  arrayIndex name = Some n → pretty n = name ∧ (n ≤ 4294967294)%N.
Proof.
  unfold arrayIndex. destruct name as [|c name]; [done|].
  destruct (parseDigits 0 (String c name)) as [m|]; [|done].
  destruct (N.leb_spec m 4294967294); cbn [andb]; [|done].
  destruct (String.eqb_spec (pretty m) (String c name)) as [E|]; [|done].
  by intros [= <-].
Qed.

Lemma indices_are_their_names (names : list string) :
  pretty <$> omap arrayIndex names =
    List.filter (fun name => negb (bool_decide (arrayIndex name = None))) names.
Proof.
  induction names as [|name names IH]; [done|]. cbn.
  destruct (arrayIndex name) as [n|] eqn:E; cbn.
  - apply arrayIndex_pretty in E as [-> _]. by rewrite IH.
  - apply IH.
Qed.

Lemma ownKeys_Permutation {V : Type} (obj : JsObject V) : ownKeys obj ≡ₚ obj.*1.
Proof.
  unfold ownKeys. cbv zeta. rewrite merge_sort_Permutation, indices_are_their_names.
  apply Interleaving_Permutation, filter_Interleaving.
Qed.




(** ** Grouping by a property key *)

Lemma setProp_names {V : Type} (name : string) (v : V) (obj : JsObject V) :
  (setProp name v obj).*1 =
    match getProp name obj with
    | Some _ => obj.*1
    | None => obj.*1 ++ [name]
    end.
Proof.
  induction obj as [|[name' v'] obj IH]; cbn; [done|].
  destruct (String.eqb name name'); cbn; [done|].
  rewrite IH. by destruct (getProp name obj).
Qed.

Section GroupByProperties.
Context {T V : Type}.
Implicit Types (keySelector : T → PropertyKey) (valueSelector : T → V).

Lemma groupByBody_names keySelector valueSelector (record : JsObject (list V)) (item : T) :
  (groupByBody keySelector valueSelector record item).*1 =
    match getProp (ToPropertyKey (keySelector item)) record with
    | Some _ => record.*1
    | None => record.*1 ++ [ToPropertyKey (keySelector item)]
    end.
Proof.
  unfold groupByBody. cbv zeta.
  destruct (getProp (ToPropertyKey (keySelector item)) record) as [values|] eqn:E.
  - by rewrite E, setProp_names, E.
  - by rewrite getProp_setProp_eq, setProp_names, getProp_setProp_eq, setProp_names, E.
Qed.

(** The buckets are created in the order in which the keys are first met. *)
Lemma groupBy_names keySelector valueSelector (items : list T) :
  ∀ record : JsObject (list V),
    (foldl (groupByBody keySelector valueSelector) record items).*1 =
      record.*1
      ++ firstOccurrences id (list_to_set record.*1)
           ((fun item => ToPropertyKey (keySelector item)) <$> items).
Proof.
  induction items as [|item items IH]; intros record; cbn [foldl fmap list_fmap].
  { cbn. by rewrite app_nil_r. }
  rewrite IH, groupByBody_names. cbn [firstOccurrences]. unfold id at 2 3.
  destruct (getProp (ToPropertyKey (keySelector item)) record) as [values|] eqn:E.
  - rewrite bool_decide_eq_true_2; [done|].
    apply elem_of_list_to_set. destruct (decide (ToPropertyKey (keySelector item) ∈ record.*1));
      [done|]. apply getProp_None in n. congruence.
  - rewrite bool_decide_eq_false_2.
    + rewrite <- app_assoc. cbn [app]. do 3 f_equal.
      apply set_eq. intros k.
      rewrite elem_of_list_to_set, elem_of_app, elem_of_union, elem_of_singleton,
        elem_of_list_to_set, list_elem_of_singleton. tauto.
    + rewrite elem_of_list_to_set. by apply getProp_None.
Qed.

Lemma bucketOf_nonempty keySelector valueSelector (name : string) (items : list T) :
  bucketOf keySelector valueSelector name items ≠ [] ↔
  ∃ item, item ∈ items ∧ ToPropertyKey (keySelector item) = name.
Proof.
  unfold bucketOf. induction items as [|item items IH]; cbn.
  - split; [done|]. intros (item & Hin & _). by apply elem_of_nil in Hin.
  - destruct (String.eqb_spec (ToPropertyKey (keySelector item)) name) as [E|E]; cbn.
    + split; [|done]. intros _. exists item. split; [by left|done].
    + rewrite IH. split.
      * intros (x & Hx & Hk). exists x. split; [by right|done].
      * intros (x & Hx & Hk). apply elem_of_cons in Hx as [->|Hx]; [done|by exists x].
Qed.

Variable selfSelector : T → V.

(** The shape of what [groupBy] returns for a finite source. *)
Lemma groupBy_structure (source : Iterable T) keySelector
    (valueSelector : option (T → V)) (items : list T) :
  Yields source items →
  let name_of := fun item => ToPropertyKey (keySelector item) in
  let bucket := bucketOf keySelector (orDefault valueSelector selfSelector) in
  ∃ fuel groups names indices,
    groupByGenerator selfSelector fuel source keySelector valueSelector = Some groups ∧
    Yields groups ((fun name => MkKeyValue name (bucket name items)) <$> names) ∧
    NoDup names ∧
    (∀ name, name ∈ names ↔ ∃ item, item ∈ items ∧ name_of item = name) ∧
    (∀ name, name ∈ names → bucket name items ≠ []) ∧
    names =
      (pretty <$> indices)
      ++ List.filter (fun name => bool_decide (arrayIndex name = None))
           (firstOccurrences id ∅ (name_of <$> items)) ∧
    Sorted N.le indices.
Proof.
  intros [fuel Hf] name_of bucket.
  set (body := groupByBody keySelector (orDefault valueSelector selfSelector)).
  set (record := foldl body ([] : JsObject (list V)) items).
  assert (record.*1 = firstOccurrences id ∅ (name_of <$> items)) as Hnames.
  { unfold record, body. by rewrite groupBy_names. }
  assert (∀ name, getProp name record =
                  match bucket name items with [] => None | b => Some b end) as Hget.
  { intros name. unfold record, body. rewrite groupBy_bucket. cbn [getProp].
    fold (bucket name items). by destruct (bucket name items). }
  assert (∀ name, name ∈ record.*1 ↔ bucket name items ≠ []) as Hne.
  { intros name. destruct (decide (name ∈ record.*1)) as [Hn|Hn].
    - split; [|done]. intros _ Hb. destruct (getProp_is_Some _ _ Hn) as [b Hs].
      by rewrite Hget, Hb in Hs.
    - split; [done|]. intros Hb. apply getProp_None in Hn.
      rewrite Hget in Hn. by destruct (bucket name items). }
  assert (∀ names : list string, (∀ name, name ∈ names → name ∈ record.*1) →
            omap (fun name => MkKeyValue name <$> getProp name record) names =
              (fun name => MkKeyValue name (bucket name items)) <$> names) as Hout.
  { induction names as [|name names IH]; intros Hall; [done|]. cbn.
    rewrite Hget. assert (bucket name items ≠ []) as Hb by (apply Hne, Hall; by left).
    destruct (bucket name items) as [|v b] eqn:Eb; [done|]. cbn.
    rewrite IH; [done|]. intros n Hn. apply Hall. by right. }
  exists fuel, (objectGenerator record), (ownKeys record),
    (merge_sort N.le (omap arrayIndex record.*1)).
  split.
  { unfold groupByGenerator. cbv zeta. fold body.
    by rewrite (forOf_finished source body fuel (iterator source)
                  ([] : JsObject (list V)) items Hf). }
  split.
  { rewrite <- Hout; [apply objectGenerator_Yields|].
    intros name. by rewrite ownKeys_Permutation. }
  split.
  { rewrite ownKeys_Permutation, Hnames.
    rewrite <- (list_fmap_id (firstOccurrences id ∅ (name_of <$> items))).
    apply (firstOccurrences_NoDup id). }
  split.
  { intros name. rewrite ownKeys_Permutation, Hne. apply bucketOf_nonempty. }
  split.
  { intros name. rewrite ownKeys_Permutation. apply Hne. }
  split; [by rewrite <- Hnames|apply (Sorted_merge_sort N.le)].
Qed.

(** For a finite source whose keys are plain (numbers that are safe
    integers, names that [Object.prototype] does not lend), [groupBy]
    returns one group per key met in the source: the group of a key
    holds the selected values of the items with that key, in source
    order, and is never empty.  The groups whose key is an array index
    come first, in ascending numeric order; the others follow in the
    order in which their keys were first met. *)
Theorem groupBy_one_group_per_key (source : Iterable T) keySelector
    (valueSelector : option (T → V)) (items : list T) :
  Yields source items →
  (∀ item, item ∈ items → plainKey (keySelector item)) →
  let name_of := fun item => ToPropertyKey (keySelector item) in
  let bucket := bucketOf keySelector (orDefault valueSelector selfSelector) in
  ∃ fuel groups names indices,
    groupByGenerator selfSelector fuel source keySelector valueSelector = Some groups ∧
    Yields groups ((fun name => MkKeyValue name (bucket name items)) <$> names) ∧
    NoDup names ∧
    (∀ name, name ∈ names ↔ ∃ item, item ∈ items ∧ name_of item = name) ∧
    (∀ name, name ∈ names → bucket name items ≠ []) ∧
    names =
      (pretty <$> indices)
      ++ List.filter (fun name => bool_decide (arrayIndex name = None))
           (firstOccurrences id ∅ (name_of <$> items)) ∧
    Sorted N.le indices.
Proof. intros Hs _. by apply groupBy_structure. Qed.
End GroupByProperties.

Lemma groupBy_one_group_per_key_witness :
  Yields (fromArray [1; 2; 3; 4]) [1; 2; 3; 4] ∧
  ∃ fuel groups names,
    groupByGenerator id fuel (fromArray [1; 2; 3; 4])
      (fun x => KString (if Z.odd x then "odd" else "even")) None = Some groups ∧
    Yields groups
      ((fun name =>
          MkKeyValue name
            (bucketOf (fun x => KString (if Z.odd x then "odd" else "even")) id name
               [1; 2; 3; 4])) <$> names) ∧
    NoDup names.
Proof.
  assert (Yields (fromArray [1; 2; 3; 4]) [1; 2; 3; 4]) as Hs
    by (exists 5%nat; reflexivity).
  split; [exact Hs|].
  destruct (groupBy_one_group_per_key id (fromArray [1; 2; 3; 4])
              (fun x => KString (if Z.odd x then "odd" else "even")) None [1; 2; 3; 4] Hs)
    as (fuel & groups & names & indices & Hg & Hy & Hd & _).
  { intros item _. split; [|done].
    destruct (Z.odd item); apply (bool_decide_unpack _); vm_compute; exact I. }
  by exists fuel, groups, names.
Defined.

(** ** Keys that are array indices *)

Lemma digitValue_char (d : N) : (d < 10)%N → digitValue (pretty_N_char d) = Some d.
Proof.
  intros Hd.
  assert (d = 0 ∨ d = 1 ∨ d = 2 ∨ d = 3 ∨ d = 4 ∨ d = 5 ∨ d = 6 ∨ d = 7 ∨ d = 8 ∨ d = 9)%N
    as Hcases by lia.
  repeat (destruct Hcases as [->|Hcases]; [reflexivity|]); try (subst; reflexivity).
Qed.

(** Reading back the digits that [pretty] writes in front of [s]. *)
Lemma parseDigits_pretty_go (x : N) : ∀ s,
  ∃ k, ∀ acc, parseDigits acc (pretty_N_go x s) = parseDigits (acc * k + x)%N s.
Proof.
  induction (N.lt_wf_0 x) as [x _ IH]; intros s.
  destruct (decide (x = 0%N)) as [->|Hx].
  - exists 1%N. intros acc. rewrite pretty_N_go_0. f_equal. lia.
  - rewrite pretty_N_go_step by lia.
    destruct (IH (x `div` 10)%N) with (s := String (pretty_N_char (x `mod` 10)) s)
      as [k Hk].
    { apply N.div_lt; lia. }
    exists (k * 10)%N. intros acc. rewrite Hk. cbn [parseDigits].
    rewrite digitValue_char by (apply N.mod_lt; lia). f_equal.
    pose proof (N.div_mod x 10 ltac:(lia)). lia.
Qed.

Lemma parseDigits_pretty (n : N) : parseDigits 0 (pretty n) = Some n.
Proof.
  unfold pretty, pretty_N. destruct (decide (n = 0%N)) as [->|Hn]; [done|].
  destruct (parseDigits_pretty_go n "") as [k Hk]. by rewrite Hk.
Qed.

(** The decimal text of an integer from 0 to 2^32 - 2 is an array index. *)
Lemma arrayIndex_of_pretty (n : N) :
  (n ≤ 4294967294)%N → arrayIndex (pretty n) = Some n.
Proof.
  intros Hn. unfold arrayIndex. pose proof (parseDigits_pretty n) as Hp.
  destruct (pretty n) as [|c rest] eqn:E.
  - cbn in Hp. injection Hp as <-. by vm_compute in E.
  - rewrite Hp. rewrite (proj2 (N.leb_le _ _) Hn). cbn [andb].
    by rewrite E, String.eqb_refl.
Qed.

Lemma pretty_Z_of_N (n : N) : pretty (Z.of_N n) = pretty n.
Proof. by destruct n. Qed.

Lemma Sorted_le_NoDup_lt (l : list N) : Sorted N.le l → NoDup l → Sorted N.lt l.
Proof.
  induction l as [|x l IH]; intros Hs Hd; [constructor|].
  apply Sorted_inv in Hs as [Hs Hh]. apply NoDup_cons in Hd as [Hx Hd].
  constructor; [by apply IH|].
  destruct Hh as [|y l Hxy]; constructor.
  assert (x ≠ y) by (intros ->; apply Hx; by left). lia.
Qed.

(** When every key is an integer from 0 to 2^32 - 2, the groups of a
    finite source come out in strictly ascending order of that integer,
    not in the order in which the keys were met. *)
Theorem groupBy_index_keys_ascending {T V : Type} (selfSelector : T → V)
    (source : Iterable T) (index : T → N) (valueSelector : option (T → V))
    (items : list T) :
  Yields source items →
  (∀ item, item ∈ items → (index item ≤ 4294967294)%N) →
  let keySelector := fun item => KNumber (Z.of_N (index item)) in
  let bucket := bucketOf keySelector (orDefault valueSelector selfSelector) in
  ∃ fuel groups indices,
    groupByGenerator selfSelector fuel source keySelector valueSelector = Some groups ∧
    Yields groups ((fun n => MkKeyValue (pretty n) (bucket (pretty n) items)) <$> indices) ∧
    Sorted N.lt indices ∧
    (∀ n, n ∈ indices ↔ ∃ item, item ∈ items ∧ index item = n).
Proof.
  intros Hs Hbound keySelector bucket.
  destruct (groupBy_structure selfSelector source keySelector valueSelector items Hs)
    as (fuel & groups & names & indices & Hg & Hy & Hd & Hin & _ & Hn & Hsorted).
  cbv zeta in Hin, Hn.
  assert (List.filter (fun name => bool_decide (arrayIndex name = None))
            (firstOccurrences id ∅
               ((fun item => ToPropertyKey (keySelector item)) <$> items)) = []) as Hnone.
  { apply filter_bool_none. intros name Hname. apply bool_decide_eq_false.
    apply (sublist_subseteq _ _ (firstOccurrences_sublist id _ ∅)) in Hname.
    apply list_elem_of_fmap in Hname as (item & -> & Hitem).
    unfold keySelector. cbn [ToPropertyKey]. rewrite pretty_Z_of_N.
    by rewrite arrayIndex_of_pretty by (by apply Hbound). }
  rewrite Hnone, app_nil_r in Hn. subst names.
  exists fuel, groups, indices. split; [exact Hg|]. split.
  { by rewrite <- list_fmap_compose in Hy. }
  split.
  { apply Sorted_le_NoDup_lt; [done|]. by apply NoDup_fmap_1 in Hd. }
  intros n. split.
  - intros Hn. destruct (proj1 (Hin (pretty n))) as (item & Hitem & Hk).
    { apply list_elem_of_fmap. by exists n. }
    exists item. split; [done|]. unfold keySelector in Hk. cbn [ToPropertyKey] in Hk.
    rewrite pretty_Z_of_N in Hk. by apply (inj pretty) in Hk.
  - intros (item & Hitem & <-).
    assert (pretty (index item) ∈ pretty <$> indices) as Hp.
    { apply Hin. exists item. split; [done|]. unfold keySelector. cbn [ToPropertyKey].
      apply pretty_Z_of_N. }
    apply list_elem_of_fmap in Hp as (m & Hm & Hmi). by apply (inj pretty) in Hm as ->.
Qed.

Lemma groupBy_index_keys_ascending_witness :
  ∃ fuel groups indices,
    groupByGenerator id fuel (fromArray [7; 3; 12; 3]%N)
      (fun item => KNumber (Z.of_N (item `mod` 5)%N)) None = Some groups ∧
    Yields groups
      ((fun n =>
          MkKeyValue (pretty n)
            (bucketOf (fun item => KNumber (Z.of_N (item `mod` 5)%N)) id (pretty n)
               [7; 3; 12; 3]%N)) <$> indices) ∧
    Sorted N.lt indices.
Proof.
  destruct (groupBy_index_keys_ascending id (fromArray [7; 3; 12; 3]%N)
              (fun item => (item `mod` 5)%N) None [7; 3; 12; 3]%N
              ltac:(exists 5%nat; reflexivity))
    as (fuel & groups & indices & Hg & Hy & Hsorted & _).
  { intros item Hitem. pose proof (N.mod_lt item 5 ltac:(lia)). lia. }
  by exists fuel, groups, indices.
Defined.

(** ** Loops that must finish *)

Lemma forOf_running {T A : Type} (source : Iterable T) (body : A → T → A) fuel :
  ∀ s acc,
    (pull (next source) fuel s).2 = false → forOf source body fuel s acc = None.
Proof.
  induction fuel as [|fuel IH]; intros s acc; [done|].
  rewrite pull_S. cbn [forOf].
  destruct (next source s) as [|s'|v s']; cbn [snd]; [done|apply IH..].
Qed.

(** [groupBy] and [groupComparedBy] consume their source before they
    return: as long as the source is running, neither has a result. *)
Theorem grouping_waits_for_source {T TKey V : Type} (selfSelector : T → V)
    (defaultComparer : TKey → TKey → bool) (source : Iterable T)
    (propertyKey : T → PropertyKey) (keySelector : T → TKey)
    (keyComparer : option (TKey → TKey → bool)) (valueSelector : option (T → V))
    (fuel : nat) :
  (drive fuel source).2 = false →
  groupByGenerator selfSelector fuel source propertyKey valueSelector = None ∧
  groupComparedByGenerator defaultComparer selfSelector fuel source keySelector
    keyComparer valueSelector = None.
Proof.
  intros Hs. unfold groupByGenerator, groupComparedByGenerator. cbv zeta.
  by rewrite !forOf_running.
Qed.

Lemma grouping_waits_for_source_witness :
  (drive 30 (countFrom 0)).2 = false ∧
  groupByGenerator id 30 (countFrom 0) (fun x => KNumber (Z.rem x 2)) None = None ∧
  groupComparedByGenerator Z.eqb id 30 (countFrom 0) (fun x => Z.rem x 2) None None = None.
Proof.
  split; [reflexivity|].
  apply (grouping_waits_for_source id Z.eqb (countFrom 0)
           (fun x => KNumber (Z.rem x 2)) (fun x => Z.rem x 2) None None 30).
  reflexivity.
Defined.

(** ** Grouping with a comparer *)

Section GroupComparedProperties.
Context {T TKey V : Type}.
Implicit Types (keySelector : T → TKey) (keyComparer : TKey → TKey → bool)
  (valueSelector : T → V) (result : list (KeyValue TKey (list V))).

Lemma groupComparedByBody_place keySelector keyComparer valueSelector result (item : T) :
  groupComparedByBody keySelector keyComparer valueSelector result item =
    placeInGroup keyComparer (keySelector item) (valueSelector item) result.
Proof.
  unfold groupComparedByBody. cbv zeta.
  induction result as [|group rest IH]; [done|].
  cbn [list_find placeInGroup].
  destruct (keyComparer (key group) (keySelector item)) eqn:E.
  - by rewrite decide_True by done.
  - rewrite decide_False by done. rewrite <- IH.
    by destruct (list_find _ rest) as [[i q]|].
Qed.

Lemma placeInGroup_cases keyComparer (k : TKey) (v : V) result :
  (Forall (fun group => keyComparer (key group) k = false) result ∧
   placeInGroup keyComparer k v result = result ++ [MkKeyValue k [v]]) ∨
  (∃ before group after,
     result = before ++ group :: after ∧
     Forall (fun q => keyComparer (key q) k = false) before ∧
     keyComparer (key group) k = true ∧
     placeInGroup keyComparer k v result =
       before ++ MkKeyValue (key group) (value group ++ [v]) :: after).
Proof.
  induction result as [|group rest IH]; cbn [placeInGroup].
  - left. by split.
  - destruct (keyComparer (key group) k) eqn:E.
    + right. exists [], group, rest. by repeat split.
    + destruct IH as [[Hall ->]|(before & q & after & -> & Hall & Hq & ->)].
      * left. split; [by constructor|done].
      * right. exists (group :: before), q, after. repeat split; [by constructor|done].
Qed.

Lemma placeInGroup_values keyComparer (k : TKey) (v : V) result :
  concat (value <$> placeInGroup keyComparer k v result) ≡ₚ
    concat (value <$> result) ++ [v].
Proof.
  induction result as [|group rest IH]; cbn [placeInGroup]; [done|].
  destruct (keyComparer (key group) k); cbn.
  - rewrite <- !app_assoc. f_equiv. apply Permutation_app_comm.
  - by rewrite IH, app_assoc.
Qed.

Lemma placeInGroup_Forall keyComparer (k : TKey) (v : V) result
    (P Q : list V → Prop) :
  (∀ l, P l → Q l) → (∀ l, P l → Q (l ++ [v])) → Q [v] →
  Forall (fun group => P (value group)) result →
  Forall (fun group => Q (value group)) (placeInGroup keyComparer k v result).
Proof.
  intros Hkeep Hpush Hnew. induction 1 as [|group rest Hg Hrest IH]; cbn [placeInGroup].
  - by repeat constructor.
  - destruct (keyComparer (key group) k).
    + constructor; [by apply Hpush|]. eapply Forall_impl; [exact Hrest|]. naive_solver.
    + constructor; [by apply Hkeep|done].
Qed.

Lemma placeInGroup_keys keyComparer (k : TKey) (v : V) result :
  key <$> placeInGroup keyComparer k v result = key <$> result ∨
  (Forall (fun group => keyComparer (key group) k = false) result ∧
   key <$> placeInGroup keyComparer k v result = (key <$> result) ++ [k]).
Proof.
  destruct (placeInGroup_cases keyComparer k v result)
    as [[Hall ->]|(before & group & after & -> & _ & _ & ->)].
  - right. split; [done|]. by rewrite fmap_app.
  - left. by rewrite !fmap_app.
Qed.

Lemma groupsOf_snoc keySelector keyComparer valueSelector (items : list T) (item : T) :
  groupsOf keySelector keyComparer valueSelector (items ++ [item]) =
    placeInGroup keyComparer (keySelector item) (valueSelector item)
      (groupsOf keySelector keyComparer valueSelector items).
Proof. unfold groupsOf. by rewrite foldl_snoc, groupComparedByBody_place. Qed.

Lemma groupsOf_partition keySelector keyComparer valueSelector (items : list T) :
  let result := groupsOf keySelector keyComparer valueSelector items in
  concat (value <$> result) ≡ₚ valueSelector <$> items ∧
  Forall (fun group => value group ≠ []) result ∧
  Forall (fun group => value group `sublist_of` valueSelector <$> items) result ∧
  key <$> result `sublist_of` keySelector <$> items ∧
  StronglySorted (fun a b => keyComparer a b = false) (key <$> result).
Proof.
  induction items as [|item items IH] using rev_ind.
  { cbn. repeat split; constructor. }
  cbv zeta in *. rewrite groupsOf_snoc, !fmap_app. cbn [fmap list_fmap].
  set (result := groupsOf keySelector keyComparer valueSelector items) in *.
  destruct IH as (Hperm & Hne & Hsub & Hkeys & Hsorted).
  split; [by rewrite placeInGroup_values, Hperm|].
  split.
  { apply (placeInGroup_Forall _ _ _ _ (fun l => l ≠ []) (fun l => l ≠ []));
      [done| |done|done].
    intros l _ Hl. by apply app_nil in Hl as [_ ?]. }
  split.
  { apply (placeInGroup_Forall _ _ _ _
             (fun l => l `sublist_of` valueSelector <$> items)
             (fun l => l `sublist_of` (valueSelector <$> items) ++ [valueSelector item]));
      [| | |done].
    - intros l Hl. by apply sublist_inserts_r.
    - intros l Hl. by apply sublist_app.
    - by apply sublist_inserts_l. }
  destruct (placeInGroup_keys keyComparer (keySelector item) (valueSelector item) result)
    as [->|[Hall ->]].
  - split; [by apply sublist_inserts_r|done].
  - split; [by apply sublist_app|].
    apply StronglySorted_app_2; [|done|repeat constructor].
    intros a b Ha Hb. apply list_elem_of_singleton in Hb as ->.
    apply list_elem_of_fmap in Ha as (group & -> & Hg).
    by apply (proj1 (Forall_forall _ _) Hall).
Qed.

Lemma StronglySorted_lookup {A : Type} (R : relation A) (l : list A) :
  StronglySorted R l →
  ∀ i j x y, (i < j)%nat → l !! i = Some x → l !! j = Some y → R x y.
Proof.
  induction 1 as [|a l Hl IH Ha]; intros i j x y Hij Hi Hj; [done|].
  destruct j as [|j]; [lia|]. cbn in Hj. destruct i as [|i]; cbn in Hi.
  - injection Hi as <-. apply (proj1 (Forall_forall _ _) Ha).
    by apply list_elem_of_lookup_2 in Hj.
  - apply (IH i j); [lia|done..].
Qed.

Variable defaultComparer : TKey → TKey → bool.
Variable selfSelector : T → V.

Lemma placeInGroup_keys_exact keyComparer (k : TKey) (v : V) result :
  key <$> placeInGroup keyComparer k v result =
    if existsb (fun g => keyComparer g k) (key <$> result) then key <$> result
    else (key <$> result) ++ [k].
Proof.
  induction result as [|group rest IH]; cbn [placeInGroup fmap list_fmap existsb]; [done|].
  destruct (keyComparer (key group) k); cbn [orb fmap list_fmap]; [done|].
  change (list_fmap _ _ key) with (fmap (M:=list) (@key TKey (list V))).
  rewrite IH. by destruct (existsb _ _).
Qed.

Lemma groupsOf_keys keySelector keyComparer valueSelector (items : list T) :
  key <$> groupsOf keySelector keyComparer valueSelector items =
    keysFirstMet keyComparer (keySelector <$> items).
Proof.
  induction items as [|item items IH] using rev_ind; [done|].
  rewrite groupsOf_snoc, placeInGroup_keys_exact, IH, fmap_app.
  unfold keysFirstMet. cbn [fmap list_fmap]. by rewrite foldl_snoc.
Qed.

(** For a finite source, whatever the comparer, [groupComparedBy] puts
    every item in exactly one group: the values of all groups together
    are the selected values of the source, no group is empty, each
    group keeps the source order, and the key of a group never compares
    equal to the key of a later group.  The groups stand in the order
    in which their keys are first met: the key of an item opens a group
    at the end unless the key of a group opened before compares equal
    to it. *)
Theorem groupComparedBy_partition (source : Iterable T) keySelector
    (keyComparer : option (TKey → TKey → bool)) (valueSelector : option (T → V))
    (items : list T) :
  Yields source items →
  let comparer := orDefault keyComparer defaultComparer in
  let selector := orDefault valueSelector selfSelector in
  ∃ fuel result,
    groupComparedByGenerator defaultComparer selfSelector fuel source keySelector
      keyComparer valueSelector = Some result ∧
    concat (value <$> result) ≡ₚ selector <$> items ∧
    (∀ group, group ∈ result →
       value group ≠ [] ∧ value group `sublist_of` selector <$> items) ∧
    key <$> result = keysFirstMet comparer (keySelector <$> items) ∧
    key <$> result `sublist_of` keySelector <$> items ∧
    (∀ i j gi gj, (i < j)%nat → result !! i = Some gi → result !! j = Some gj →
       comparer (key gi) (key gj) = false).
Proof.
  intros [fuel Hf] comparer selector.
  exists fuel, (groupsOf keySelector comparer selector items).
  destruct (groupsOf_partition keySelector comparer selector items)
    as (Hperm & Hne & Hsub & Hkeys & Hsorted).
  split.
  { unfold groupComparedByGenerator. cbv zeta.
    by rewrite (forOf_finished source _ fuel _ _ items Hf). }
  split; [done|]. split.
  { intros group Hg. split.
    - by apply (proj1 (Forall_forall _ _) Hne).
    - by apply (proj1 (Forall_forall _ _) Hsub). }
  split; [apply groupsOf_keys|]. split; [done|].
  intros i j gi gj Hij Hi Hj.
  apply (StronglySorted_lookup _ _ Hsorted i j); [done|by rewrite list_lookup_fmap, ?Hi, ?Hj..].
Qed.

Lemma groupsOf_classes keySelector keyComparer valueSelector (items : list T) :
  (∀ a, keyComparer a a = true) →
  (∀ a b, keyComparer a b = true → keyComparer b a = true) →
  (∀ a b c, keyComparer a b = true → keyComparer b c = true → keyComparer a c = true) →
  let result := groupsOf keySelector keyComparer valueSelector items in
  Forall (fun group =>
            value group =
              valueSelector <$>
                List.filter (fun item => keyComparer (key group) (keySelector item)) items)
    result ∧
  (∀ item, item ∈ items →
     ∃ k, k ∈ key <$> result ∧ keyComparer k (keySelector item) = true).
Proof.
  intros Hrefl Hsym Htrans.
  induction items as [|item items IH] using rev_ind.
  { cbn. split; [constructor|]. intros item Hitem. by apply elem_of_nil in Hitem. }
  cbv zeta in *.
  pose proof (groupsOf_partition keySelector keyComparer valueSelector items)
    as (_ & _ & _ & _ & Hsorted). cbv zeta in Hsorted.
  rewrite groupsOf_snoc.
  set (result := groupsOf keySelector keyComparer valueSelector items) in *.
  set (k := keySelector item). set (v := valueSelector item).
  destruct IH as [Hvals Hcover].
  assert (∀ group, keyComparer (key group) k = false →
            value group =
              valueSelector <$>
                List.filter (fun x => keyComparer (key group) (keySelector x)) items →
            value group =
              valueSelector <$>
                List.filter (fun x => keyComparer (key group) (keySelector x))
                  (items ++ [item])) as Hkeep.
  { intros group Hg ->. rewrite List.filter_app. cbn [List.filter]. fold k.
    by rewrite Hg, app_nil_r. }
  destruct (placeInGroup_cases keyComparer k v result)
    as [[Hall ->]|(before & group & after & Hres & Hbefore & Hg & ->)].
  - split.
    + apply Forall_app. split.
      * apply Forall_forall. intros group Hgroup. apply Hkeep.
        -- by apply (proj1 (Forall_forall _ _) Hall).
        -- by apply (proj1 (Forall_forall _ _) Hvals).
      * constructor; [|constructor]. cbn [key value].
        rewrite List.filter_app. cbn [List.filter]. fold k. rewrite Hrefl.
        rewrite filter_bool_none; [done|].
        intros x Hx. destruct (keyComparer k (keySelector x)) eqn:E; [|done].
        destruct (Hcover x Hx) as (k' & Hk' & Hc).
        apply list_elem_of_fmap in Hk' as (group & -> & Hgroup).
        rewrite <- (proj1 (Forall_forall _ _) Hall group Hgroup). symmetry.
        apply (Htrans _ (keySelector x)); [done|by apply Hsym].
    + intros x Hx. apply elem_of_app in Hx as [Hx|Hx].
      * destruct (Hcover x Hx) as (k' & Hk' & Hc). exists k'. split; [|done].
        rewrite fmap_app. apply elem_of_app. by left.
      * apply list_elem_of_singleton in Hx as ->. exists k. split; [|apply Hrefl].
        rewrite fmap_app. apply elem_of_app. right. by left.
  - rewrite Hres in Hvals, Hcover, Hsorted.
    apply Forall_app in Hvals as [Hvb Hva]. apply Forall_cons in Hva as [Hvg Hva].
    rewrite fmap_app, fmap_cons in Hsorted.
    apply StronglySorted_app_1_r, StronglySorted_cons in Hsorted as [Hafter _].
    split.
    + apply Forall_app. split; [|constructor].
      * apply Forall_forall. intros q Hq. apply Hkeep.
        -- by apply (proj1 (Forall_forall _ _) Hbefore).
        -- by apply (proj1 (Forall_forall _ _) Hvb).
      * cbn [key value]. rewrite List.filter_app. cbn [List.filter]. fold k.
        by rewrite Hg, Hvg, fmap_app.
      * apply Forall_forall. intros q Hq. apply Hkeep.
        -- destruct (keyComparer (key q) k) eqn:E; [|done].
           rewrite <- (proj1 (Forall_forall _ _) Hafter (key q)).
           ++ symmetry. apply (Htrans _ k); [done|by apply Hsym].
           ++ apply list_elem_of_fmap. by exists q.
        -- by apply (proj1 (Forall_forall _ _) Hva).
    + assert (key <$> before ++ {| key := key group; value := value group ++ [v] |} :: after
              = key <$> before ++ group :: after) as -> by (by rewrite !fmap_app).
      intros x Hx. apply elem_of_app in Hx as [Hx|Hx]; [by apply Hcover|].
      apply list_elem_of_singleton in Hx as ->. exists (key group). split; [|done].
      rewrite fmap_app. apply elem_of_app. right. by left.
Qed.

(** When the comparer is an equivalence (reflexive, symmetric,
    transitive), the groups of a finite source are its classes: a group
    holds exactly the selected values of the items whose key compares
    equal to the key of the group, in source order, and every item has
    such a group. *)
Theorem groupComparedBy_classes (source : Iterable T) keySelector
    (keyComparer : option (TKey → TKey → bool)) (valueSelector : option (T → V))
    (items : list T) :
  let comparer := orDefault keyComparer defaultComparer in
  let selector := orDefault valueSelector selfSelector in
  (∀ a, comparer a a = true) →
  (∀ a b, comparer a b = true → comparer b a = true) →
  (∀ a b c, comparer a b = true → comparer b c = true → comparer a c = true) →
  Yields source items →
  ∃ fuel result,
    groupComparedByGenerator defaultComparer selfSelector fuel source keySelector
      keyComparer valueSelector = Some result ∧
    (∀ group, group ∈ result →
       value group =
         selector <$> List.filter (fun item => comparer (key group) (keySelector item)) items) ∧
    (∀ item, item ∈ items →
       ∃ group, group ∈ result ∧ comparer (key group) (keySelector item) = true).
Proof.
  intros comparer selector Hrefl Hsym Htrans [fuel Hf].
  exists fuel, (groupsOf keySelector comparer selector items).
  destruct (groupsOf_classes keySelector comparer selector items Hrefl Hsym Htrans)
    as [Hvals Hcover].
  split.
  { unfold groupComparedByGenerator. cbv zeta.
    by rewrite (forOf_finished source _ fuel _ _ items Hf). }
  split.
  - intros group Hg. by apply (proj1 (Forall_forall _ _) Hvals).
  - intros item Hitem. destruct (Hcover item Hitem) as (k & Hk & Hc).
    apply list_elem_of_fmap in Hk as (group & -> & Hg). by exists group.
Qed.
End GroupComparedProperties.

Lemma groupComparedBy_classes_witness :
  ∃ fuel result,
    groupComparedByGenerator Z.eqb id fuel (fromArray [1; 2; 3; 4; 5])
      (fun x => Z.rem x 3) None None = Some result ∧
    ∀ group, group ∈ result →
      value group =
        id <$> List.filter (fun item => Z.eqb (key group) (Z.rem item 3)) [1; 2; 3; 4; 5].
Proof.
  destruct (groupComparedBy_classes Z.eqb id (fromArray [1; 2; 3; 4; 5])
              (fun x => Z.rem x 3) None None [1; 2; 3; 4; 5])
    as (fuel & result & Hg & Hv & _).
  - intros a. apply Z.eqb_refl.
  - intros a b Hab. apply Z.eqb_eq in Hab as ->. apply Z.eqb_refl.
  - intros a b c Hab Hbc. apply Z.eqb_eq in Hab as ->. exact Hbc.
  - exists 6%nat. reflexivity.
  - by exists fuel, result.
Defined.

Lemma groupComparedBy_partition_witness :
  ∃ fuel result,
    groupComparedByGenerator Z.eqb id fuel (fromArray [1; 2; 1])
      (fun x => x) None None = Some result ∧
    concat (value <$> result) ≡ₚ id <$> [1; 2; 1] ∧
    key <$> result = [1; 2].
Proof.
  destruct (groupComparedBy_partition Z.eqb id (fromArray [1; 2; 1])
              (fun x => x) None None [1; 2; 1]
              ltac:(exists 4%nat; reflexivity))
    as (fuel & result & Hg & Hp & _ & Hk & _).
  by exists fuel, result.
Defined.
